(** * MCTS engine of Game-AI-Project-2 (src/mcts_vanilla.py, src/mcts_modified.py)

    Shallow embedding of the search engine.  The tree of [MCTSNode] objects is
    modelled as an arena: a list of node records addressed by index, the index
    playing the role of Python object identity, so that the parent
    back-references and the in-place mutations of the source are explicit.
    Python floats are modelled as exact numbers: [Q] for the plain division of
    [get_best_action], [R] for [ucb], which needs [sqrt] and [log].
    Every [while] loop takes a fuel argument; running out of fuel is a result of
    its own ([OutOfFuel]), distinct from a Python exception ([Fault]). *)

From Stdlib Require Import Reals Lra QArith.
From stdpp Require Import base list.

Open Scope Z_scope.

(** ** Results: Python exceptions and loop fuel *)

Inductive result (A : Type) : Type :=
| Ok (a : A)
| Fault
| OutOfFuel.
Arguments Ok {A} a.
Arguments Fault {A}.
Arguments OutOfFuel {A}.

#[global] Instance result_ret : MRet result := fun A a => Ok a.
#[global] Instance result_bind : MBind result := fun A B f m =>
  match m with
  | Ok a => f a
  | Fault => Fault
  | OutOfFuel => OutOfFuel
  end.

Definition of_option {A} (o : option A) : result A :=
  match o with Some a => Ok a | None => Fault end.

(** ** Game adapter ([p2_t3.Board], external to the engine) *)

(** Actions of the board are the tuples [(R, C, r, c)]: sub-board coordinates
    followed by the cell inside the sub-board; [action[2:]] is [(r, c)]. *)
Definition Action : Type := (Z * Z * Z * Z)%type.

Definition local_cell (a : Action) : Z * Z :=
  let '(_, _, r, c) := a in (r, c).

Record Board (State : Type) := {
  legal_actions : State -> list Action;
  next_state : State -> Action -> State;
  is_ended : State -> bool;
  current_player : State -> Z;
  (** [points_values]: [None] on a non-terminal state, else the score map *)
  points_values : State -> option (Z -> Z);
  (** [win_values]: [None] while nobody has won, else a (non-empty) map *)
  win_values : State -> option (Z -> Z)
}.
Arguments legal_actions {State} b s.
Arguments next_state {State} b s a.
Arguments is_ended {State} b s.
Arguments current_player {State} b s.
Arguments points_values {State} b s.
Arguments win_values {State} b s.

(** ** Search nodes *)

Record MCTSNode := {
  parent : option nat;
  parent_action : option Action;
  child_nodes : list (Action * nat);
  untried_actions : list Action;
  visits : nat;
  wins : nat
}.

(** The object store: node [i] is [st !! i]. *)
Abbreviation store := (list MCTSNode).

(** Modelled from the spec: the [MCTSNode] constructor (mcts_node.py is not
    among the sources).  §3/§4.3 of the spec: a fresh node records its parent
    and parent action, has no children, its untried actions are the given
    action list, and its statistics start at zero. *)
Definition new_node (p : option nat) (pa : option Action) (action_list : list Action)
  : MCTSNode :=
  {| parent := p; parent_action := pa; child_nodes := [];
     untried_actions := action_list; visits := 0; wins := 0 |}.

Definition lookup_node (st : store) (i : nat) : result MCTSNode :=
  of_option (st !! i).

(** Python [d[k] = v] on a dict: an existing key keeps its position and gets
    the new value, a new key is appended. *)
Fixpoint dict_set (k : Action) (v : nat) (d : list (Action * nat)) : list (Action * nat) :=
  match d with
  | [] => [(k, v)]
  | (k', v') :: d' => if decide (k = k') then (k, v) :: d' else (k', v') :: dict_set k v d'
  end.

(** Python [l.pop()]: remove and return the last element. *)
Definition list_pop {A} (l : list A) : option (list A * A) :=
  match rev l with
  | [] => None
  | x :: r => Some (rev r, x)
  end.

Definition set_expansion (nd : MCTSNode) (untried : list Action) (cs : list (Action * nat))
  : MCTSNode :=
  {| parent := parent nd; parent_action := parent_action nd; child_nodes := cs;
     untried_actions := untried; visits := visits nd; wins := wins nd |}.

(** One pass of the [backpropagate] loop body on a node:
    [node.visits += 1; if won: node.wins += 1]. *)
Definition bump (nd : MCTSNode) (won : bool) : MCTSNode :=
  {| parent := parent nd; parent_action := parent_action nd; child_nodes := child_nodes nd;
     untried_actions := untried_actions nd; visits := S (visits nd);
     wins := if won then S (wins nd) else wins nd |}.

Section Engine.
Context {State : Type} (board : Board State).

(** ** [ucb] *)

Definition explorationFactor : R := sqrt 2.

Definition ucb_value (w v pv : nat) (is_opponent : bool) : R :=
  let winRate := (INR w / INR v)%R in
  let winRate := if is_opponent then (1 - winRate)%R else winRate in
  (winRate + explorationFactor * sqrt (ln (INR pv) / INR v))%R.

(** [node.wins / node.visits] raises ZeroDivisionError on zero visits,
    [node.parent.visits] fails on the root, [log(0)] raises ValueError. *)
Definition ucb (st : store) (node : nat) (is_opponent : bool) : result R :=
  nd ← lookup_node st node;
  if decide (visits nd = 0%nat) then Fault else
  p ← of_option (parent nd);
  pn ← lookup_node st p;
  if decide (visits pn = 0%nat) then Fault else
  Ok (ucb_value (wins nd) (visits nd) (visits pn) is_opponent).

(** ** [traverse_nodes] *)

Definition sentinel_ucb : R := (-9999)%R.

(** The [for action, child in node.child_nodes.items()] scan, strictly greater
    comparison against the running best. *)
Fixpoint scan_children (st : store) (is_opponent : bool) (cs : list (Action * nat))
    (currentBestUcb : R) (bestChild : option nat) : result (option nat) :=
  match cs with
  | [] => Ok bestChild
  | (_, child) :: cs' =>
      ucbValue ← ucb st child is_opponent;
      if Rlt_dec currentBestUcb ucbValue
      then scan_children st is_opponent cs' ucbValue (Some child)
      else scan_children st is_opponent cs' currentBestUcb bestChild
  end.

Definition descend_cond (nd : MCTSNode) : bool :=
  bool_decide (untried_actions nd = []) && bool_decide (child_nodes nd <> []).

Fixpoint traverse_nodes (fuel : nat) (st : store) (node : nat) (state : State)
    (bot_identity : Z) : result (nat * State) :=
  match fuel with
  | O => OutOfFuel
  | S fuel' =>
      nd ← lookup_node st node;
      if descend_cond nd then
        bestChild ← scan_children st (bool_decide (bot_identity = current_player board state))
                      (child_nodes nd) sentinel_ucb None;
        match bestChild with
        | Some c =>
            cn ← lookup_node st c;
            pa ← of_option (parent_action cn);
            traverse_nodes fuel' st c (next_state board state pa) bot_identity
        | None => traverse_nodes fuel' st node state bot_identity
        end
      else Ok (node, state)
  end.

(** ** [expand_leaf] *)

(** Returns the new store, the added child ([None] when nothing was expanded)
    and its state.  The new node is appended to the store: its index is the
    identity of the freshly allocated object. *)
Definition expand_leaf (st : store) (node : nat) (state : State)
  : result (store * option nat * State) :=
  nd ← lookup_node st node;
  match list_pop (untried_actions nd) with
  | None => Ok (st, None, state)
  | Some (untried', actionToExpand) =>
      let newGameState := next_state board state actionToExpand in
      let newChild := length st in
      let newChildNode := new_node (Some node) (Some actionToExpand)
                            (legal_actions board newGameState) in
      let nd' := set_expansion nd untried'
                   (dict_set actionToExpand newChild (child_nodes nd)) in
      Ok (<[node := nd']> st ++ [newChildNode], Some newChild, newGameState)
  end.

(** ** [rollout] of mcts_vanilla.py *)

(** [random.choice] is an oracle: [choice k actions] is the pick made at the
    [k]-th step; it raises IndexError ([Fault]) on an empty sequence. *)
Fixpoint rollout_random_loop (choice : nat -> list Action -> result Action)
    (fuel k : nat) (state : State) : result State :=
  match fuel with
  | O => OutOfFuel
  | S fuel' =>
      if is_ended board state then Ok state else
      chosenAction ← choice k (legal_actions board state);
      rollout_random_loop choice fuel' (S k) (next_state board state chosenAction)
  end.

Definition rollout_random (choice : nat -> list Action -> result Action)
    (fuel : nat) (state : State) : result State :=
  rollout_random_loop choice fuel 0 state.

(** ** [heuristic] and [rollout] of mcts_modified.py *)

Definition corner_cells : list (Z * Z) := [(0, 0); (0, 2); (2, 0); (2, 2)].
Definition edge_cells : list (Z * Z) := [(1, 0); (0, 1); (1, 2); (2, 1)].

Definition heuristic (state : State) (opponent currentPlayer : Z) (action : Action) : Z :=
  let cell := local_cell action in
  if bool_decide (currentPlayer <> opponent) then
    (if win_values board state then 100000000000 else 0)
    + (if bool_decide (cell = (1, 1)) then 100000000 else 0)
    + (if bool_decide (cell ∈ corner_cells) then 500 else 0)
    + (if bool_decide (cell ∈ edge_cells) then 100 else 0)
  else
    (* [if board.win_values(state):] a non-empty dict is truthy *)
    (if win_values board state then -10000 else 0)
    - (if bool_decide (cell = (1, 1)) then 1000 else 0)
    - (if bool_decide (cell ∈ corner_cells) then 500 else 0)
    - (if bool_decide (cell ∈ edge_cells) then 100 else 0).

Definition best_score_sentinel : Z := -9999999999999999999999.

(** The [for action in legal_actions] scan of [rollout]: strictly greater
    comparison, so the first action reaching the maximum is kept. *)
Fixpoint greedy_scan (state : State) (opponent current_player : Z) (acts : list Action)
    (best_score : Z) (best_action : option Action) : option Action :=
  match acts with
  | [] => best_action
  | action :: acts' =>
      let score := heuristic (next_state board state action) opponent current_player action in
      if bool_decide (best_score < score)
      then greedy_scan state opponent current_player acts' score (Some action)
      else greedy_scan state opponent current_player acts' best_score best_action
  end.

Definition greedy_action (state : State) (opponent current_player : Z) : option Action :=
  greedy_scan state opponent current_player (legal_actions board state)
    best_score_sentinel None.

Fixpoint rollout_greedy_loop (fuel : nat) (opponent current_player : Z) (state : State)
  : result State :=
  match fuel with
  | O => OutOfFuel
  | S fuel' =>
      if is_ended board state then Ok state else
      (* [board.next_state(state, None)] fails when no action was chosen *)
      best_action ← of_option (greedy_action state opponent current_player);
      rollout_greedy_loop fuel' opponent current_player (next_state board state best_action)
  end.

(** [current_player] and [opponent] are captured once, from the rollout's
    starting state. *)
Definition rollout_opponent (cp : Z) : Z := if bool_decide (cp = 2) then 1 else 2.

Definition rollout_greedy (fuel : nat) (state : State) : result State :=
  let cp := current_player board state in
  rollout_greedy_loop fuel (rollout_opponent cp) cp state.

(** ** [winning_move] of mcts_modified.py *)

(** [for action in board.legal_actions(state)]: return [True] at the first
    action whose next state is scored and gives [player] the value 1
    ([points_values.get(player, 0) == 1]), [False] after the loop. *)
Fixpoint winning_move_scan (state : State) (player : Z) (acts : list Action) : bool :=
  match acts with
  | [] => false
  | action :: acts' =>
      match points_values board (next_state board state action) with
      | Some pv => if bool_decide (pv player = 1) then true
                   else winning_move_scan state player acts'
      | None => winning_move_scan state player acts'
      end
  end.

Definition winning_move (state : State) (player : Z) : bool :=
  winning_move_scan state player (legal_actions board state).

(** ** [backpropagate] *)

Fixpoint backpropagate (fuel : nat) (st : store) (node : option nat) (won : bool)
  : result store :=
  match node with
  | None => Ok st
  | Some i =>
      match fuel with
      | O => OutOfFuel
      | S fuel' =>
          nd ← lookup_node st i;
          backpropagate fuel' (<[i := bump nd won]> st) (parent nd) won
      end
  end.

(** ** [get_best_action] *)

Definition win_rate (nd : MCTSNode) : Q := inject_Z (Z.of_nat (wins nd)) / inject_Z (Z.of_nat (visits nd)).

Fixpoint best_action_scan (st : store) (cs : list (Action * nat))
    (bestWinRate : Q) (bestAction : option Action) : result (option Action) :=
  match cs with
  | [] => Ok bestAction
  | (action, child) :: cs' =>
      cn ← lookup_node st child;
      if decide (visits cn = 0%nat) then Fault else
      let winRate := win_rate cn in
      if Qle_bool winRate bestWinRate
      then best_action_scan st cs' bestWinRate bestAction
      else best_action_scan st cs' winRate (Some action)
  end.

Definition get_best_action (st : store) (root_node : nat) : result (option Action) :=
  nd ← lookup_node st root_node;
  best_action_scan st (child_nodes nd) (-9999 # 1) None.

(** ** [is_win] and [think] *)

Definition is_win (state : State) (identity_of_bot : Z) : result bool :=
  (* [assert outcome is not None] *)
  outcome ← of_option (points_values board state);
  Ok (bool_decide (outcome identity_of_bot = 1)).

(** [while not node.untried_actions and node.child_nodes: traverse_nodes(...)] *)
Fixpoint select_loop (fuel : nat) (st : store) (node : nat) (state : State)
    (bot_identity : Z) : result (nat * State) :=
  match fuel with
  | O => OutOfFuel
  | S fuel' =>
      nd ← lookup_node st node;
      if descend_cond nd then
        '(node', state') ← traverse_nodes fuel st node state bot_identity;
        select_loop fuel' st node' state' bot_identity
      else Ok (node, state)
  end.

(** One iteration of the [for _ in range(num_nodes)] loop of [think]; [rollout]
    is the simulation policy used in this iteration. *)
Definition mcts_iteration (fuel : nat) (bot_identity : Z) (current_state : State)
    (rollout : State -> result State) (st : store) : result store :=
  '(node, state) ← select_loop fuel st 0%nat current_state bot_identity;
  nd ← lookup_node st node;
  '(st1, leaf, state1) ←
    (if bool_decide (untried_actions nd <> []) then expand_leaf st node state
     else Ok (st, Some node, state));
  rolloutState ← rollout state1;
  won ← is_win rolloutState bot_identity;
  backpropagate fuel st1 leaf won.

Fixpoint search_loop (fuel : nat) (bot_identity : Z) (current_state : State)
    (rollouts : nat -> State -> result State) (k n : nat) (st : store) : result store :=
  match n with
  | O => Ok st
  | S n' =>
      st' ← mcts_iteration fuel bot_identity current_state (rollouts k) st;
      search_loop fuel bot_identity current_state rollouts (S k) n' st'
  end.

(** The tree built by [think] from a fresh root with [n] iterations; the root
    is node 0.  [rollouts k] is the simulation policy of iteration [k]. *)
Definition search (fuel n : nat) (current_state : State)
    (rollouts : nat -> State -> result State) : result store :=
  let bot_identity := current_player board current_state in
  let root_node := new_node None None (legal_actions board current_state) in
  search_loop fuel bot_identity current_state rollouts 0 n [root_node].

Definition num_nodes : nat := 1000.

Definition think (fuel : nat) (current_state : State)
    (rollouts : nat -> State -> result State) : result (option Action) :=
  st ← search fuel num_nodes current_state rollouts;
  get_best_action st 0.

End Engine.

(** ** Derived quantities used in the statements *)

Definition set_wins (nd : MCTSNode) (w : nat) : MCTSNode :=
  {| parent := parent nd; parent_action := parent_action nd; child_nodes := child_nodes nd;
     untried_actions := untried_actions nd; visits := visits nd; wins := w |}.

Definition node_visits (st : store) (j : nat) : nat :=
  match st !! j with Some nd => visits nd | None => 0%nat end.

(** [sum(child.visits for child in root.child_nodes.values())] for root node 0 *)
Definition root_children_visits (st : store) : nat :=
  match st !! 0%nat with
  | Some r => sum_list_with (node_visits st) (map snd (child_nodes r))
  | None => 0%nat
  end.

(** ** A small concrete board

    States are the lists of moves played so far; two moves end the game;
    player 1 moves on even lengths and player 2 on odd lengths; player 1 wins
    every finished game.  [toy_A] is the centre of its sub-board, [toy_B] a
    corner. *)

Definition toy_A : Action := (0, 0, 1, 1).
Definition toy_B : Action := (0, 0, 0, 0).

Definition toy_board : Board (list Action) := {|
  legal_actions := fun s => if (length s <? 2)%nat then [toy_B; toy_A] else [];
  next_state := fun s a => s ++ [a];
  is_ended := fun s => (2 <=? length s)%nat;
  current_player := fun s => if Nat.even (length s) then 1 else 2;
  points_values := fun s =>
    if (2 <=? length s)%nat then Some (fun p => if bool_decide (p = 1) then 1 else -1)
    else None;
  win_values := fun _ => None
|}.

Definition mk_node (p : option nat) (pa : option Action) (cs : list (Action * nat))
    (untried : list Action) (v w : nat) : MCTSNode :=
  {| parent := p; parent_action := pa; child_nodes := cs;
     untried_actions := untried; visits := v; wins := w |}.

(** Root with two visited children: after [toy_A] the searching side won its
    only simulation, after [toy_B] it lost its only simulation. *)
Definition two_children_store : store :=
  [ mk_node None None [(toy_A, 1%nat); (toy_B, 2%nat)] [] 2 1;
    mk_node (Some 0%nat) (Some toy_A) [] [toy_B] 1 1;
    mk_node (Some 0%nat) (Some toy_B) [] [toy_A] 1 0 ].

(** Root whose only child carries statistics outside [wins <= visits]. *)
Definition stuck_store : store :=
  [ mk_node None None [(toy_A, 1%nat)] [] 1 0;
    mk_node (Some 0%nat) (Some toy_A) [] [toy_B] 1 (Z.to_nat 10000) ].

(** Root with children of win rates 8/10 and 1/10. *)
Definition best_action_store : store :=
  [ mk_node None None [(toy_A, 1%nat); (toy_B, 2%nat)] [] 20 9;
    mk_node (Some 0%nat) (Some toy_A) [] [] 10 8;
    mk_node (Some 0%nat) (Some toy_B) [] [] 10 1 ].

(** Two levels: node 1 (after [toy_A]) already has the child 3 (after
    [toy_A; toy_A]) and still has [toy_B] untried. *)
Definition frame_store : store :=
  [ mk_node None None [(toy_A, 1%nat); (toy_B, 2%nat)] [] 5 3;
    mk_node (Some 0%nat) (Some toy_A) [(toy_A, 3%nat)] [toy_B] 3 2;
    mk_node (Some 0%nat) (Some toy_B) [] [toy_B; toy_A] 1 1;
    mk_node (Some 1%nat) (Some toy_A) [] [] 2 1 ].

Definition toy_rollouts : nat -> list Action -> result (list Action) :=
  fun _ => rollout_greedy toy_board 10.

(** [toy_board] where playing the corner [toy_B] first wins at once. *)
Definition toy_win_board : Board (list Action) := {|
  legal_actions := legal_actions toy_board;
  next_state := next_state toy_board;
  is_ended := is_ended toy_board;
  current_player := current_player toy_board;
  points_values := points_values toy_board;
  win_values := fun s => if bool_decide (s = [toy_B]) then Some (fun _ => 1) else None
|}.

(** Node [j] is reached from node [i] by following child links, the state
    being replayed along the [parent_action] of each child taken. *)
Inductive reaches {State} (board : Board State) (st : store)
    : nat -> State -> nat -> State -> Prop :=
| reaches_here (i : nat) (s : State) : reaches board st i s i s
| reaches_step (i : nat) (s : State) (nd : MCTSNode) (a : Action) (c : nat)
    (cn : MCTSNode) (pa : Action) (j : nat) (s' : State) :
    st !! i = Some nd -> (a, c) ∈ child_nodes nd -> st !! c = Some cn ->
    parent_action cn = Some pa -> reaches board st c (next_state board s pa) j s' ->
    reaches board st i s j s'.

(** Node 0 is the only node without a parent. *)
Definition root_only_orphan (st : store) : Prop :=
  (exists r, st !! 0%nat = Some r /\ parent r = None)
  /\ forall i nd, st !! i = Some nd -> i <> 0%nat -> parent nd <> None.

(** Every node other than the root has been visited. *)
Definition non_root_visited (st : store) : Prop :=
  forall j nd, st !! j = Some nd -> j <> 0%nat -> (1 <= visits nd)%nat.

(** The actions still untried or already expanded at the root are all in
    [legal]. *)
Definition root_actions_legal (legal : list Action) (st : store) : Prop :=
  exists r, st !! 0%nat = Some r
    /\ forall a, a ∈ untried_actions r ++ map fst (child_nodes r) -> a ∈ legal.

(** Each child entry [(a, c)] of node [i] points to a node whose parent is [i]
    and whose parent action is [a]. *)
Definition children_linked (st : store) : Prop :=
  forall i nd a c, st !! i = Some nd -> (a, c) ∈ child_nodes nd ->
    exists cn, st !! c = Some cn /\ parent cn = Some i /\ parent_action cn = Some a.

(** * Properties *)

(** No untried action of a node is already one of its children keys. *)
Definition fresh_untried (st : store) : Prop :=
  Forall (fun nd => NoDup (untried_actions nd ++ map fst (child_nodes nd))) st.

(** Claim C6: with no untried action, [expand_leaf] returns no node, the state
    unchanged and the store (so every node's children, visits and wins)
    unchanged, without raising. *)
Lemma expand_leaf_nothing_to_expand {State} (board : Board State) (st : store)
    (node : nat) (state : State) (nd : MCTSNode) :
  st !! node = Some nd -> untried_actions nd = [] ->
  expand_leaf board st node state = Ok (st, None, state).
Proof.
  intros Hl Hu. unfold expand_leaf, lookup_node. rewrite Hl. simpl.
  unfold list_pop. rewrite Hu. reflexivity.
Qed.

Lemma expand_leaf_nothing_to_expand_witness :
  two_children_store !! 0%nat = Some (mk_node None None [(toy_A, 1%nat); (toy_B, 2%nat)] [] 2 1)
  /\ expand_leaf toy_board two_children_store 0 [] = Ok (two_children_store, None, []).
Proof.
  split; [reflexivity|].
  apply (expand_leaf_nothing_to_expand toy_board two_children_store 0 []
           (mk_node None None [(toy_A, 1%nat); (toy_B, 2%nat)] [] 2 1)); reflexivity.
Defined.

(** ** Helper lemmas on the embedded containers *)

Lemma list_pop_snoc {A} (l : list A) (x : A) : list_pop (l ++ [x]) = Some (l, x).
Proof. unfold list_pop. rewrite rev_app_distr. simpl. rewrite rev_involutive. reflexivity. Qed.

Lemma list_pop_Some {A} (l r : list A) (x : A) : list_pop l = Some (r, x) -> l = r ++ [x].
Proof.
  unfold list_pop. destruct (rev l) as [|y t] eqn:E; [discriminate|].
  intros H. injection H as <- <-.
  rewrite <- (rev_involutive l), E. reflexivity.
Qed.

Lemma dict_set_fresh (k : Action) (v : nat) (d : list (Action * nat)) :
  k ∉ map fst d -> dict_set k v d = d ++ [(k, v)].
Proof.
  induction d as [|[k' v'] d IH]; simpl; intros Hn; [reflexivity|].
  destruct (decide (k = k')) as [->|Hne].
  - exfalso. apply Hn. left.
  - rewrite IH; [reflexivity|]. intros Hin. apply Hn. right. exact Hin.
Qed.

(** Claim C10: expanding a node whose last untried action is not yet a key of
    its children (untried actions are the actions not yet expanded, §3) pops
    that action, appends exactly one child entry under it pointing to the new
    node, keeps the node's visits, wins, parent and parent action, and leaves
    every other node of the store, pre-existing children included,
    untouched. *)
Lemma expand_leaf_frame {State} (board : Board State) (st : store) (node : nat)
    (state : State) (nd : MCTSNode) (untried' : list Action) (a : Action) :
  st !! node = Some nd ->
  untried_actions nd = untried' ++ [a] ->
  a ∉ map fst (child_nodes nd) ->
  exists st',
    expand_leaf board st node state = Ok (st', Some (length st), next_state board state a)
    /\ st' !! node = Some {| parent := parent nd; parent_action := parent_action nd;
                             child_nodes := child_nodes nd ++ [(a, length st)];
                             untried_actions := untried'; visits := visits nd; wins := wins nd |}
    /\ st' !! length st = Some (new_node (Some node) (Some a)
                                 (legal_actions board (next_state board state a)))
    /\ (forall i, i <> node -> i <> length st -> st' !! i = st !! i)
    /\ length st' = S (length st).
Proof.
  intros Hl Hu Hfresh.
  assert (Hlt : (node < length st)%nat) by (apply lookup_lt_is_Some; rewrite Hl; done).
  eexists. split.
  { unfold expand_leaf, lookup_node. rewrite Hl. simpl. rewrite Hu, list_pop_snoc. reflexivity. }
  repeat split.
  - rewrite lookup_app_l by (rewrite length_insert; lia).
    rewrite list_lookup_insert_eq by lia. unfold set_expansion.
    rewrite dict_set_fresh by exact Hfresh. reflexivity.
  - rewrite lookup_app_r by (rewrite length_insert; lia).
    rewrite length_insert, Nat.sub_diag. reflexivity.
  - intros i Hi Hnew. destruct (decide (i < length st)%nat) as [Hi'|Hi'].
    + rewrite lookup_app_l by (rewrite length_insert; lia).
      rewrite list_lookup_insert_ne by congruence. reflexivity.
    + rewrite lookup_app_r by (rewrite length_insert; lia).
      rewrite length_insert. rewrite (lookup_ge_None_2 st i) by lia.
      apply lookup_ge_None_2. simpl. lia.
  - rewrite length_app, length_insert. simpl. lia.
Qed.

Lemma expand_leaf_frame_witness :
  exists st',
    expand_leaf toy_board frame_store 1 [toy_A] = Ok (st', Some 4%nat, [toy_A; toy_B])
    /\ st' !! 1%nat = Some (mk_node (Some 0%nat) (Some toy_A) [(toy_A, 3%nat); (toy_B, 4%nat)] [] 3 2)
    /\ st' !! 4%nat = Some (new_node (Some 1%nat) (Some toy_B) [])
    /\ st' !! 3%nat = Some (mk_node (Some 1%nat) (Some toy_A) [] [] 2 1)
    /\ st' !! 0%nat = frame_store !! 0%nat
    /\ st' !! 2%nat = frame_store !! 2%nat
    /\ length st' = 5%nat.
Proof.
  assert (Hfresh : toy_B ∉ map fst [(toy_A, 3%nat)]).
  { apply (bool_decide_unpack (toy_B ∉ map fst [(toy_A, 3%nat)])). vm_compute. exact I. }
  destruct (expand_leaf_frame toy_board frame_store 1 [toy_A]
              (mk_node (Some 0%nat) (Some toy_A) [(toy_A, 3%nat)] [toy_B] 3 2) [] toy_B
              eq_refl eq_refl Hfresh) as (st' & H1 & H2 & H3 & H4 & H5).
  exists st'. split; [exact H1|]. split; [exact H2|]. split; [exact H3|].
  split; [rewrite (H4 3%nat) by (cbn; lia); reflexivity|].
  split; [apply H4; cbn; lia|]. split; [apply H4; cbn; lia|]. exact H5.
Defined.

(** Claim C8: for a child with positive visits whose parent has positive
    visits, the UCB score from the bot's own perspective (no flip) does not
    decrease when the child's wins grow and everything else is fixed. *)
Lemma ucb_monotone_in_wins (st : store) (i p : nat) (nd pn : MCTSNode) (w1 w2 : nat) :
  st !! i = Some nd -> parent nd = Some p -> st !! p = Some pn ->
  (0 < visits nd)%nat -> (0 < visits pn)%nat -> (w1 <= w2)%nat ->
  exists u1 u2,
    ucb (<[i := set_wins nd w1]> st) i false = Ok u1
    /\ ucb (<[i := set_wins nd w2]> st) i false = Ok u2
    /\ (u1 <= u2)%R.
Proof.
  intros Hi Hp Hpn Hv Hpv Hw.
  assert (Hlt : (i < length st)%nat) by (apply lookup_lt_is_Some; rewrite Hi; done).
  (* the parent seen after the update has the same visit count *)
  assert (Hpar : forall w, exists pn', <[i := set_wins nd w]> st !! p = Some pn'
                                   /\ visits pn' = visits pn).
  { intros w. destruct (decide (p = i)) as [->|Hne].
    - exists (set_wins nd w). rewrite list_lookup_insert_eq by lia.
      split; [reflexivity|]. rewrite Hi in Hpn. injection Hpn as <-. reflexivity.
    - exists pn. rewrite list_lookup_insert_ne by congruence. split; [exact Hpn|reflexivity]. }
  destruct (Hpar w1) as [pn1 [Hl1 Hv1]]. destruct (Hpar w2) as [pn2 [Hl2 Hv2]].
  exists (ucb_value w1 (visits nd) (visits pn) false), (ucb_value w2 (visits nd) (visits pn) false).
  unfold ucb, lookup_node.
  rewrite !list_lookup_insert_eq by lia. simpl.
  destruct (decide (visits nd = 0%nat)) as [E|_]; [lia|]. simpl.
  rewrite Hp. simpl. rewrite Hl1, Hl2. simpl. rewrite Hv1, Hv2.
  destruct (decide (visits pn = 0%nat)) as [E|_]; [lia|].
  split; [reflexivity|]. split; [reflexivity|].
  unfold ucb_value. apply Rplus_le_compat_r.
  unfold Rdiv. apply Rmult_le_compat_r.
  - apply Rlt_le, Rinv_0_lt_compat, lt_0_INR. exact Hv.
  - apply le_INR. exact Hw.
Qed.

Lemma ucb_monotone_in_wins_witness :
  exists u1 u2,
    ucb (<[1%nat := set_wins (mk_node (Some 0%nat) (Some toy_A) [] [toy_B] 1 1) 0]>
           two_children_store) 1 false = Ok u1
    /\ ucb (<[1%nat := set_wins (mk_node (Some 0%nat) (Some toy_A) [] [toy_B] 1 1) 1]>
           two_children_store) 1 false = Ok u2
    /\ (u1 <= u2)%R.
Proof.
  apply (ucb_monotone_in_wins two_children_store 1 0
           (mk_node (Some 0%nat) (Some toy_A) [] [toy_B] 1 1)
           (mk_node None None [(toy_A, 1%nat); (toy_B, 2%nat)] [] 2 1) 0 1);
    try reflexivity; simpl; lia.
Defined.

(** ** Selection on concrete trees *)

Lemma exploration_term_nonneg (pv v : nat) :
  (0 <= explorationFactor * sqrt (ln (INR pv) / INR v))%R.
Proof. apply Rmult_le_pos; apply sqrt_pos. Qed.

Lemma two_children_ucb_1 :
  ucb two_children_store 1 (bool_decide (1 = 1)%Z) = Ok (ucb_value 1 1 2 true).
Proof. reflexivity. Qed.

Lemma two_children_ucb_2 :
  ucb two_children_store 2 (bool_decide (1 = 1)%Z) = Ok (ucb_value 0 1 2 true).
Proof. reflexivity. Qed.

(** Claim C1 (evidence): player 1 searches and is itself the mover at the root.
    The child reached by [toy_A] won its simulation for the bot, the one
    reached by [toy_B] lost.  [traverse_nodes] passes
    [bot_identity == current_player(state)], true here, as [is_opponent], so
    both rates are flipped although the bot made the move: the bot-winning
    child scores lower than the losing one and selection descends to the
    losing child (node 2).  Without the flip the order is the reverse. *)
Lemma traverse_flips_rate_on_bot_move :
  current_player toy_board [] = 1
  /\ ucb two_children_store 1 (bool_decide (1 = current_player toy_board [])) = Ok (ucb_value 1 1 2 true)
  /\ ucb two_children_store 2 (bool_decide (1 = current_player toy_board [])) = Ok (ucb_value 0 1 2 true)
  /\ (ucb_value 1 1 2 true < ucb_value 0 1 2 true)%R
  /\ (ucb_value 0 1 2 false < ucb_value 1 1 2 false)%R
  /\ traverse_nodes toy_board 2 two_children_store 0 [] 1 = Ok (2%nat, [toy_B]).
Proof.
  pose proof (exploration_term_nonneg 2 1) as He.
  split; [reflexivity|]. split; [reflexivity|]. split; [reflexivity|].
  split; [unfold ucb_value in *; cbn [INR] in *; lra|].
  split; [unfold ucb_value in *; cbn [INR] in *; lra|].
  cbn -[ucb Rlt_dec]. rewrite two_children_ucb_1.
  cbn -[ucb Rlt_dec ucb_value]. rewrite two_children_ucb_2. cbn -[ucb_value Rlt_dec].
  unfold ucb_value in *. cbn [INR] in *.
  destruct (Rlt_dec _ _) as [H1|H1]; [|exfalso; unfold sentinel_ucb in H1; lra].
  destruct (Rlt_dec _ _) as [H2|H2]; [|exfalso; lra].
  reflexivity.
Qed.

Lemma stuck_ucb :
  ucb stuck_store 1 (bool_decide (1 = 1)%Z) = Ok (ucb_value (Z.to_nat 10000) 1 1 true).
Proof. reflexivity. Qed.

Lemma stuck_ucb_value : ucb_value (Z.to_nat 10000) 1 1 true = sentinel_ucb.
Proof.
  unfold ucb_value, sentinel_ucb. rewrite INR_IZR_INZ, Z2Nat.id by lia.
  cbn [INR]. rewrite ln_1. unfold Rdiv. rewrite Rmult_0_l, sqrt_0. lra.
Qed.


(** ** The greedy rollout *)

Lemma rollout_opponent_differs (cp : Z) : cp <> rollout_opponent cp.
Proof. unfold rollout_opponent. case_bool_decide; lia. Qed.

(** Claim C2 (evidence): the rollout calls [heuristic] with the [opponent] and
    [current_player] captured at its start, which always differ, so the
    favoured-side branch is taken at every step: a centre action scores at
    least 100000000, whoever actually moves. *)
Lemma rollout_heuristic_center_always_positive {State} (board : Board State)
    (s s' : State) (a : Action) :
  local_cell a = (1, 1) ->
  100000000 <= heuristic board s' (rollout_opponent (current_player board s))
                 (current_player board s) a.
Proof.
  intros Hc. unfold heuristic. rewrite Hc.
  rewrite bool_decide_eq_true_2 by apply rollout_opponent_differs.
  destruct (win_values board s'); vm_compute; congruence.
Qed.

(** From the start state [[]] (player 1 to move) the rollout plays the centre
    [toy_A]; in the state reached, player 2, the captured opponent, moves, and
    the centre action still gets a positive score. *)
Lemma rollout_heuristic_center_always_positive_witness :
  greedy_action toy_board [] (rollout_opponent (current_player toy_board []))
    (current_player toy_board []) = Some toy_A
  /\ current_player toy_board [toy_A] = rollout_opponent (current_player toy_board [])
  /\ 100000000 <= heuristic toy_board (next_state toy_board [toy_A] toy_A)
                   (rollout_opponent (current_player toy_board []))
                   (current_player toy_board []) toy_A.
Proof.
  split; [reflexivity|]. split; [reflexivity|].
  apply rollout_heuristic_center_always_positive. reflexivity.
Defined.

Section GreedyScan.
Context {State : Type} (board : Board State) (state : State) (opponent cp : Z).

Let score (b : Action) : Z := heuristic board (next_state board state b) opponent cp b.

(** The scan keeps its seed unless some action beats it; otherwise it returns
    the first action whose score is maximal. *)
Lemma greedy_scan_spec (acts : list Action) (bs : Z) (ba : option Action) (a : Action) :
  greedy_scan board state opponent cp acts bs ba = Some a ->
  (ba = Some a /\ forall b, b ∈ acts -> score b <= bs)
  \/ (exists pre post, acts = pre ++ a :: post /\ bs < score a
        /\ (forall b, b ∈ pre -> score b < score a)
        /\ (forall b, b ∈ post -> score b <= score a)).
Proof.
  revert bs ba. induction acts as [|x acts IH]; intros bs ba H; simpl in H.
  - left. split; [exact H|]. intros b Hb. inversion Hb.
  - case_bool_decide as Hlt.
    + destruct (IH _ _ H) as [[Hba Hle]|(pre & post & -> & Hgt & Hpre & Hpost)].
      * injection Hba as ->. right. exists [], acts.
        split; [reflexivity|]. split; [exact Hlt|]. split.
        -- intros b Hb. inversion Hb.
        -- exact Hle.
      * right. exists (x :: pre), post. split; [reflexivity|]. split; [unfold score in *; lia|].
        split; [|exact Hpost].
        intros b Hb. apply elem_of_cons in Hb as [->|Hb]; [exact Hgt|exact (Hpre b Hb)].
    + destruct (IH _ _ H) as [[Hba Hle]|(pre & post & -> & Hgt & Hpre & Hpost)].
      * left. split; [exact Hba|].
        intros b Hb. apply elem_of_cons in Hb as [->|Hb]; [unfold score in *; lia|exact (Hle b Hb)].
      * right. exists (x :: pre), post. split; [reflexivity|]. split; [exact Hgt|].
        split; [|exact Hpost].
        intros b Hb. apply elem_of_cons in Hb as [->|Hb]; [unfold score in *; lia|exact (Hpre b Hb)].
Qed.

End GreedyScan.

Lemma rollout_greedy_loop_fuel_independent {State} (board : Board State)
    (opponent cp : Z) (f1 f2 : nat) (s t1 t2 : State) :
  rollout_greedy_loop board f1 opponent cp s = Ok t1 ->
  rollout_greedy_loop board f2 opponent cp s = Ok t2 -> t1 = t2.
Proof.
  revert f2 s. induction f1 as [|f1 IH]; intros f2 s H1 H2; [discriminate|].
  destruct f2 as [|f2]; [discriminate|]. simpl in H1, H2.
  destruct (is_ended board s).
  - congruence.
  - destruct (greedy_action board s opponent cp); [|discriminate].
    exact (IH _ _ H1 H2).
Qed.

(** Claim C9: two runs of the greedy rollout from the same state with the same
    board reach the same terminal state, whatever fuel either run had; every
    step plays [greedy_action] of the current state, which is the first legal
    action (in the board's order) whose heuristic score is maximal. *)
Lemma rollout_greedy_deterministic {State} (board : Board State) (f1 f2 : nat)
    (s t1 t2 : State) :
  rollout_greedy board f1 s = Ok t1 -> rollout_greedy board f2 s = Ok t2 ->
  t1 = t2
  /\ (forall f s', rollout_greedy_loop board (S f) (rollout_opponent (current_player board s))
                     (current_player board s) s'
                   = if is_ended board s' then Ok s' else
                     match greedy_action board s' (rollout_opponent (current_player board s))
                             (current_player board s) with
                     | Some a => rollout_greedy_loop board f
                                   (rollout_opponent (current_player board s))
                                   (current_player board s) (next_state board s' a)
                     | None => Fault
                     end)
  /\ (forall s' a, greedy_action board s' (rollout_opponent (current_player board s))
                     (current_player board s) = Some a ->
      let score b := heuristic board (next_state board s' b)
                       (rollout_opponent (current_player board s)) (current_player board s) b in
      exists pre post, legal_actions board s' = pre ++ a :: post
        /\ (forall b, b ∈ pre -> score b < score a)
        /\ (forall b, b ∈ post -> score b <= score a)).
Proof.
  intros H1 H2. split; [exact (rollout_greedy_loop_fuel_independent _ _ _ _ _ _ _ _ H1 H2)|].
  split.
  - intros f s'. simpl. destruct (is_ended board s'); [reflexivity|].
    destruct (greedy_action _ _ _ _); reflexivity.
  - intros s' a Ha score. unfold greedy_action in Ha.
    destruct (greedy_scan_spec _ _ _ _ _ _ _ _ Ha) as [[Hn _]|(pre & post & Heq & _ & Hpre & Hpost)];
      [discriminate|].
    exists pre, post. auto.
Qed.

Lemma rollout_greedy_deterministic_witness :
  rollout_greedy toy_board 5 [] = Ok [toy_A; toy_A]
  /\ rollout_greedy toy_board 7 [] = Ok [toy_A; toy_A]
  /\ [toy_A; toy_A] = [toy_A; toy_A].
Proof.
  split; [reflexivity|]. split; [reflexivity|].
  exact (proj1 (rollout_greedy_deterministic toy_board 5 7 [] [toy_A; toy_A] [toy_A; toy_A]
                  eq_refl eq_refl)).
Defined.

(** ** Decision extraction *)

Definition child_rate (st : store) (c : nat) : Q :=
  match st !! c with Some cn => win_rate cn | None => 0%Q end.

Lemma win_rate_nonneg (nd : MCTSNode) : (0 <= win_rate nd)%Q.
Proof.
  unfold win_rate, Qdiv. apply Qmult_le_0_compat.
  - unfold Qle. simpl. lia.
  - apply Qinv_le_0_compat. unfold Qle. simpl. lia.
Qed.

Lemma best_action_scan_spec (st : store) (cs : list (Action * nat)) (bw : Q)
    (ba : option Action) :
  (forall a c, (a, c) ∈ cs -> exists cn, st !! c = Some cn /\ (0 < visits cn)%nat) ->
  exists r, best_action_scan st cs bw ba = Ok r
  /\ ((r = ba /\ forall x, x ∈ cs -> (child_rate st x.2 <= bw)%Q)
      \/ (exists pre a c post, cs = pre ++ (a, c) :: post /\ r = Some a
            /\ (bw < child_rate st c)%Q
            /\ (forall x, x ∈ pre -> (child_rate st x.2 < child_rate st c)%Q)
            /\ (forall x, x ∈ post -> (child_rate st x.2 <= child_rate st c)%Q))).
Proof.
  revert bw ba. induction cs as [|[a0 c0] cs IH]; intros bw ba Hcs.
  - exists ba. split; [reflexivity|]. left. split; [reflexivity|]. intros x Hx. inversion Hx.
  - assert (Hcs' : forall a c, (a, c) ∈ cs -> exists cn, st !! c = Some cn /\ (0 < visits cn)%nat)
      by (intros a c Hin; apply (Hcs a c), elem_of_cons; right; exact Hin).
    destruct (Hcs a0 c0 (list_elem_of_here _ _)) as [cn [Hl Hv]].
    assert (Hrate : child_rate st c0 = win_rate cn) by (unfold child_rate; rewrite Hl; reflexivity).
    simpl. unfold lookup_node. rewrite Hl. simpl.
    destruct (decide (visits cn = 0%nat)) as [E|_]; [lia|].
    destruct (Qle_bool (win_rate cn) bw) eqn:Hq.
    + apply Qle_bool_iff in Hq.
      destruct (IH bw ba Hcs') as [r [Hr [[-> Hle]|(pre & a & c & post & -> & -> & Hgt & Hpre & Hpost)]]];
        eexists; (split; [exact Hr|]).
      * left. split; [reflexivity|]. intros x Hx. apply elem_of_cons in Hx as [->|Hx].
        -- simpl. rewrite Hrate. exact Hq.
        -- exact (Hle x Hx).
      * right. exists ((a0, c0) :: pre), a, c, post. split; [reflexivity|]. split; [reflexivity|].
        split; [exact Hgt|]. split; [|exact Hpost].
        intros x Hx. apply elem_of_cons in Hx as [->|Hx].
        -- simpl. rewrite Hrate. exact (Qle_lt_trans _ _ _ Hq Hgt).
        -- exact (Hpre x Hx).
    + assert (Hlt : (bw < win_rate cn)%Q).
      { apply Qnot_le_lt. intros Hle. apply Qle_bool_iff in Hle. congruence. }
      destruct (IH (win_rate cn) (Some a0) Hcs')
        as [r [Hr [[-> Hle]|(pre & a & c & post & -> & -> & Hgt & Hpre & Hpost)]]];
        eexists; (split; [exact Hr|]).
      * right. exists [], a0, c0, cs. split; [reflexivity|]. split; [reflexivity|].
        rewrite Hrate. split; [exact Hlt|]. split.
        -- intros x Hx. inversion Hx.
        -- exact Hle.
      * right. exists ((a0, c0) :: pre), a, c, post. split; [reflexivity|]. split; [reflexivity|].
        split; [exact (Qlt_trans _ _ _ Hlt Hgt)|]. split; [|exact Hpost].
        intros x Hx. apply elem_of_cons in Hx as [->|Hx].
        -- simpl. rewrite Hrate. exact Hgt.
        -- exact (Hpre x Hx).
Qed.

Lemma child_rate_nonneg (st : store) (c : nat) : (0 <= child_rate st c)%Q.
Proof. unfold child_rate. destruct (st !! c); [apply win_rate_nonneg|apply Qle_refl]. Qed.

(** Claim C5: when every child of the root has been visited,
    [get_best_action] returns the action of the first child whose
    [wins / visits] is maximal (children before it have a strictly lower rate,
    children after it a rate no higher); it returns [None] for a root without
    children; for the two children 8/10 and 1/10 it returns the first one's
    action. *)
Lemma get_best_action_first_max (st : store) (root : nat) (r : MCTSNode) :
  st !! root = Some r ->
  (forall a c, (a, c) ∈ child_nodes r -> exists cn, st !! c = Some cn /\ (0 < visits cn)%nat) ->
  (child_nodes r = [] -> get_best_action st root = Ok None)
  /\ (child_nodes r <> [] ->
      exists pre a c post, child_nodes r = pre ++ (a, c) :: post
        /\ get_best_action st root = Ok (Some a)
        /\ (forall x, x ∈ pre -> (child_rate st x.2 < child_rate st c)%Q)
        /\ (forall x, x ∈ post -> (child_rate st x.2 <= child_rate st c)%Q))
  /\ get_best_action best_action_store 0 = Ok (Some toy_A).
Proof.
  intros Hr Hcs.
  destruct (best_action_scan_spec st (child_nodes r) (-9999 # 1) None Hcs)
    as [res [Hres [[-> Hle]|(pre & a & c & post & Heq & -> & Hgt & Hpre & Hpost)]]].
  - split; [|split].
    + intros _. unfold get_best_action, lookup_node. rewrite Hr. exact Hres.
    + intros Hne. exfalso. destruct (child_nodes r) as [|x cs] eqn:E; [congruence|].
      specialize (Hle x (list_elem_of_here _ _)).
      pose proof (child_rate_nonneg st x.2) as H0.
      assert (Hbad : (0 <= -9999 # 1)%Q) by exact (Qle_trans _ _ _ H0 Hle).
      unfold Qle in Hbad. simpl in Hbad. lia.
    + reflexivity.
  - split; [|split].
    + intros E. rewrite E in Heq. destruct pre; discriminate.
    + intros _. exists pre, a, c, post. split; [exact Heq|]. split; [|split; assumption].
      unfold get_best_action, lookup_node. rewrite Hr. exact Hres.
    + reflexivity.
Qed.

Lemma get_best_action_first_max_witness :
  get_best_action best_action_store 0 = Ok (Some toy_A).
Proof.
  refine (proj2 (proj2 (get_best_action_first_max best_action_store 0
            (mk_node None None [(toy_A, 1%nat); (toy_B, 2%nat)] [] 20 9) _ _))).
  - reflexivity.
  - intros a c Hin. simpl in Hin.
    apply elem_of_cons in Hin as [Hin|Hin]; [injection Hin as -> ->; eexists; split; [reflexivity|simpl; lia]|].
    apply elem_of_cons in Hin as [Hin|Hin]; [injection Hin as -> ->; eexists; split; [reflexivity|simpl; lia]|].
    inversion Hin.
Defined.

(** ** Statistics invariant *)

Definition wins_le_visits (st : store) : Prop :=
  Forall (fun nd => (wins nd <= visits nd)%nat) st.

Lemma bind_Ok {A B} (m : result A) (f : A -> result B) (b : B) :
  (m ≫= f) = Ok b -> exists a, m = Ok a /\ f a = Ok b.
Proof. destruct m as [a| |]; simpl; intros H; [exists a; split; [reflexivity|exact H]|discriminate|discriminate]. Qed.

Tactic Notation "inv_bind" hyp(H) "as" ident(a) ident(Hm) :=
  apply bind_Ok in H; destruct H as [a [Hm H]].

Lemma of_option_Ok {A} (o : option A) (a : A) : of_option o = Ok a -> o = Some a.
Proof. destruct o; simpl; congruence. Qed.

Lemma bump_wins_le_visits (st : store) (i : nat) (nd : MCTSNode) (won : bool) :
  wins_le_visits st -> st !! i = Some nd -> wins_le_visits (<[i := bump nd won]> st).
Proof.
  intros Hst Hl. apply Forall_insert; [exact Hst|].
  pose proof (proj1 (Forall_lookup _ st) Hst i nd Hl) as H. simpl in H.
  unfold bump. destruct won; simpl; lia.
Qed.

Lemma backpropagate_wins_le_visits (fuel : nat) (st : store) (x : option nat) (won : bool)
    (st' : store) :
  wins_le_visits st -> backpropagate fuel st x won = Ok st' -> wins_le_visits st'.
Proof.
  revert st x. induction fuel as [|fuel IH]; intros st x Hst H.
  - destruct x; simpl in H; [discriminate|]. congruence.
  - destruct x as [i|]; simpl in H; [|congruence].
    inv_bind H as nd Hm. apply of_option_Ok in Hm.
    exact (IH _ _ (bump_wins_le_visits st i nd won Hst Hm) H).
Qed.

Lemma expand_leaf_wins_le_visits {State} (board : Board State) (st : store) (node : nat)
    (state : State) (st' : store) (leaf : option nat) (state' : State) :
  wins_le_visits st -> expand_leaf board st node state = Ok (st', leaf, state') ->
  wins_le_visits st'.
Proof.
  intros Hst H. unfold expand_leaf in H. inv_bind H as a Hm. apply of_option_Ok in Hm.
  destruct (list_pop (untried_actions a)) as [[u act]|].
  - injection H as <- _ _. apply Forall_app. split.
    + apply Forall_insert; [exact Hst|].
      exact (proj1 (Forall_lookup _ st) Hst node a Hm).
    + constructor; [simpl; lia|constructor].
  - injection H as <- _ _. exact Hst.
Qed.

Lemma mcts_iteration_wins_le_visits {State} (board : Board State) (fuel : nat) (bot : Z)
    (s0 : State) (rollout : State -> result State) (st st' : store) :
  wins_le_visits st -> mcts_iteration board fuel bot s0 rollout st = Ok st' ->
  wins_le_visits st'.
Proof.
  intros Hst H. unfold mcts_iteration in H.
  inv_bind H as sel Hsel. destruct sel as [node state].
  inv_bind H as nd Hnd. inv_bind H as ex Hex. destruct ex as [[st1 leaf] state1].
  inv_bind H as rs Hrs. inv_bind H as won Hwon.
  refine (backpropagate_wins_le_visits _ _ _ _ _ _ H).
  case_bool_decide.
  - exact (expand_leaf_wins_le_visits board st node state st1 leaf state1 Hst Hex).
  - injection Hex as <- _ _. exact Hst.
Qed.

Lemma search_loop_wins_le_visits {State} (board : Board State) (fuel : nat) (bot : Z)
    (s0 : State) (rollouts : nat -> State -> result State) (k n : nat) (st st' : store) :
  wins_le_visits st -> search_loop board fuel bot s0 rollouts k n st = Ok st' ->
  wins_le_visits st'.
Proof.
  revert k st. induction n as [|n IH]; intros k st Hst H; simpl in H.
  - congruence.
  - inv_bind H as st1 Hm. exact (IH _ _ (mcts_iteration_wins_le_visits _ _ _ _ _ _ _ Hst Hm) H).
Qed.

(** Claim C7: [wins <= visits] holds for every node ([0 <= wins] is built into
    the counters' type): one step of the [backpropagate] loop preserves it on
    the whole store, so does a whole walk and an expansion, and hence every
    tree the search builds, after any number of iterations, satisfies it. *)
Lemma wins_le_visits_everywhere {State} (board : Board State) :
  (forall st i nd won, wins_le_visits st -> st !! i = Some nd ->
     wins_le_visits (<[i := bump nd won]> st))
  /\ (forall fuel st x won st', wins_le_visits st ->
        backpropagate fuel st x won = Ok st' -> wins_le_visits st')
  /\ (forall st node state st' leaf state', wins_le_visits st ->
        expand_leaf board st node state = Ok (st', leaf, state') -> wins_le_visits st')
  /\ (forall fuel n s0 rollouts st, search board fuel n s0 rollouts = Ok st ->
        wins_le_visits st).
Proof.
  split; [exact bump_wins_le_visits|].
  split; [exact backpropagate_wins_le_visits|].
  split; [exact (expand_leaf_wins_le_visits board)|].
  intros fuel n s0 rollouts st H. refine (search_loop_wins_le_visits _ _ _ _ _ _ _ _ _ _ H).
  constructor; [simpl; lia|constructor].
Qed.

Definition toy_search_result : store :=
  [ mk_node None None [(toy_A, 1%nat); (toy_B, 2%nat)] [] 2 2;
    mk_node (Some 0%nat) (Some toy_A) [] [toy_B; toy_A] 1 1;
    mk_node (Some 0%nat) (Some toy_B) [] [toy_B; toy_A] 1 1 ].

Lemma wins_le_visits_everywhere_witness :
  search toy_board 10%nat 2%nat [] toy_rollouts = Ok toy_search_result
  /\ wins_le_visits toy_search_result.
Proof.
  split; [vm_compute; reflexivity|].
  apply (proj2 (proj2 (proj2 (wins_le_visits_everywhere toy_board))) 10%nat 2%nat [] toy_rollouts).
  vm_compute. reflexivity.
Defined.

(** ** Root visit count *)

(** Shape of the tree around the root (node 0) maintained by the search. *)
Record root_inv (st : store) (root : MCTSNode) : Prop := {
  ri_root : st !! 0%nat = Some root;
  ri_root_parent : parent root = None;
  ri_parents : forall i nd, st !! i = Some nd -> i <> 0%nat ->
                 exists p, parent nd = Some p /\ (p < i)%nat;
  ri_children : forall j, j ∈ map snd (child_nodes root) <->
                  exists nd, st !! j = Some nd /\ parent nd = Some 0%nat;
  ri_children_nodup : NoDup (map snd (child_nodes root));
  ri_fresh : NoDup (untried_actions root ++ map fst (child_nodes root));
  ri_nonempty : untried_actions root <> [] \/ child_nodes root <> []
}.

Definition tree_inv (st : store) : Prop := exists root, root_inv st root.

Lemma sum_list_with_ext (f g : nat -> nat) (l : list nat) :
  (forall j, j ∈ l -> f j = g j) -> sum_list_with f l = sum_list_with g l.
Proof.
  induction l as [|x l IH]; intros H; simpl; [reflexivity|].
  rewrite (H x (list_elem_of_here _ _)), IH; [reflexivity|].
  intros j Hj. apply H, elem_of_cons. right. exact Hj.
Qed.

Lemma sum_list_with_bump (f g : nat -> nat) (i : nat) (l : list nat) :
  NoDup l -> (forall j, g j = f j + (if decide (j = i) then 1 else 0))%nat ->
  sum_list_with g l = (sum_list_with f l + (if decide (i ∈ l) then 1 else 0))%nat.
Proof.
  intros Hnd Hg. induction Hnd as [|x l Hx Hnd IH]; simpl; [reflexivity|].
  rewrite Hg, IH.
  destruct (decide (x = i)) as [->|Hne].
  - rewrite decide_False by (intros Hin; exact (Hx Hin)).
    rewrite decide_True by apply list_elem_of_here. lia.
  - destruct (decide (i ∈ l)) as [Hin|Hnin].
    + rewrite decide_True by (apply elem_of_cons; right; exact Hin). lia.
    + rewrite decide_False by (intros Hc; apply elem_of_cons in Hc as [Hc|Hc]; congruence). lia.
Qed.

Lemma lookup_insert_cases {A} (l : list A) (i j : nat) (x : A) :
  (i < length l)%nat ->
  <[i := x]> l !! j = if decide (j = i) then Some x else l !! j.
Proof.
  intros Hi. destruct (decide (j = i)) as [->|Hne].
  - apply list_lookup_insert_eq. exact Hi.
  - apply list_lookup_insert_ne. congruence.
Qed.

Lemma lookup_expanded {A} (l : list A) (i j : nat) (x y : A) :
  (i < length l)%nat ->
  (<[i := x]> l ++ [y]) !! j =
    if decide (j = i) then Some x else if decide (j = length l) then Some y else l !! j.
Proof.
  intros Hi. destruct (decide (j < length l)%nat) as [Hj|Hj].
  - rewrite lookup_app_l by (rewrite length_insert; exact Hj).
    rewrite lookup_insert_cases by exact Hi.
    destruct (decide (j = i)); [reflexivity|].
    rewrite decide_False by lia. reflexivity.
  - rewrite lookup_app_r by (rewrite length_insert; lia). rewrite length_insert.
    rewrite decide_False by lia.
    destruct (decide (j = length l)) as [->|Hne].
    + rewrite Nat.sub_diag. reflexivity.
    + rewrite (lookup_ge_None_2 l j) by lia. apply lookup_ge_None_2. simpl. lia.
Qed.

Lemma root_children_visits_of (st : store) (root : MCTSNode) :
  st !! 0%nat = Some root ->
  root_children_visits st = sum_list_with (node_visits st) (map snd (child_nodes root)).
Proof. intros H. unfold root_children_visits. rewrite H. reflexivity. Qed.

(** Updating a node without touching its parent, children or untried actions
    keeps the root shape. *)
Lemma root_inv_insert_same_shape (st : store) (root : MCTSNode) (i : nat) (nd nd' : MCTSNode) :
  root_inv st root -> st !! i = Some nd ->
  parent nd' = parent nd -> child_nodes nd' = child_nodes nd ->
  untried_actions nd' = untried_actions nd ->
  root_inv (<[i := nd']> st) (if decide (i = 0%nat) then nd' else root).
Proof.
  intros Hinv Hl Hp Hc Hu.
  assert (Hlt : (i < length st)%nat) by (apply lookup_lt_is_Some; rewrite Hl; done).
  assert (Hlk : forall j, <[i := nd']> st !! j = if decide (j = i) then Some nd' else st !! j)
    by (intros j; apply lookup_insert_cases; exact Hlt).
  (* the root seen through the update has the same children and untried list *)
  set (root' := if decide (i = 0%nat) then nd' else root).
  assert (Hr0 : <[i := nd']> st !! 0%nat = Some root').
  { rewrite Hlk. unfold root'. destruct (decide (0%nat = i)), (decide (i = 0%nat)); try lia.
    - reflexivity.
    - apply (ri_root _ _ Hinv). }
  assert (Hsame : parent root' = parent root /\ child_nodes root' = child_nodes root
                  /\ untried_actions root' = untried_actions root).
  { unfold root'. destruct (decide (i = 0%nat)) as [->|]; [|auto].
    rewrite (ri_root _ _ Hinv) in Hl. injection Hl as <-. auto. }
  destruct Hsame as (Hsp & Hsc & Hsu).
  (* the parent of every node is unchanged *)
  assert (Hpar : forall j ndj, <[i := nd']> st !! j = Some ndj ->
                   exists ndo, st !! j = Some ndo /\ parent ndj = parent ndo).
  { intros j ndj Hj. rewrite Hlk in Hj. destruct (decide (j = i)) as [->|].
    - injection Hj as <-. exists nd. auto.
    - exists ndj. auto. }
  assert (Hpar' : forall j ndo, st !! j = Some ndo ->
                   exists ndj, <[i := nd']> st !! j = Some ndj /\ parent ndj = parent ndo).
  { intros j ndo Hj. rewrite Hlk. destruct (decide (j = i)) as [->|].
    - rewrite Hl in Hj. injection Hj as <-. exists nd'. auto.
    - exists ndo. auto. }
  constructor.
  - exact Hr0.
  - rewrite Hsp. apply (ri_root_parent _ _ Hinv).
  - intros j ndj Hj Hj0. destruct (Hpar j ndj Hj) as [ndo [Ho Hpo]].
    rewrite Hpo. exact (ri_parents _ _ Hinv j ndo Ho Hj0).
  - intros j. rewrite Hsc, (ri_children _ _ Hinv j). split.
    + intros [ndo [Ho Hpo]]. destruct (Hpar' j ndo Ho) as [ndj [Hj Hpj]].
      exists ndj. rewrite Hpj. auto.
    + intros [ndj [Hj Hpj]]. destruct (Hpar j ndj Hj) as [ndo [Ho Hpo]].
      exists ndo. rewrite <- Hpo. auto.
  - rewrite Hsc. apply (ri_children_nodup _ _ Hinv).
  - rewrite Hsc, Hsu. apply (ri_fresh _ _ Hinv).
  - rewrite Hsc, Hsu. apply (ri_nonempty _ _ Hinv).
Qed.

Lemma root_inv_bump (st : store) (root : MCTSNode) (i : nat) (nd : MCTSNode) (won : bool) :
  root_inv st root -> st !! i = Some nd ->
  exists root', root_inv (<[i := bump nd won]> st) root'
    /\ child_nodes root' = child_nodes root
    /\ root_children_visits (<[i := bump nd won]> st)
       = (root_children_visits st + (if decide (parent nd = Some 0%nat) then 1 else 0))%nat.
Proof.
  intros Hinv Hl.
  assert (Hlt : (i < length st)%nat) by (apply lookup_lt_is_Some; rewrite Hl; done).
  pose proof (root_inv_insert_same_shape st root i nd (bump nd won) Hinv Hl
                eq_refl eq_refl eq_refl) as Hinv'.
  set (root' := if decide (i = 0%nat) then bump nd won else root) in Hinv'.
  assert (Hc : child_nodes root' = child_nodes root).
  { unfold root'. destruct (decide (i = 0%nat)) as [->|]; [|reflexivity].
    rewrite (ri_root _ _ Hinv) in Hl. injection Hl as <-. reflexivity. }
  exists root'. split; [exact Hinv'|]. split; [exact Hc|].
  rewrite (root_children_visits_of _ _ (ri_root _ _ Hinv')),
          (root_children_visits_of _ _ (ri_root _ _ Hinv)), Hc.
  rewrite (sum_list_with_bump (node_visits st) _ i) by
    (first [ apply (ri_children_nodup _ _ Hinv)
           | intros j; unfold node_visits; rewrite lookup_insert_cases by exact Hlt;
             destruct (decide (j = i)) as [->|]; [rewrite Hl; simpl; lia|lia] ]).
  f_equal.
  destruct (decide (i ∈ map snd (child_nodes root))) as [Hin|Hnin];
    destruct (decide (parent nd = Some 0%nat)) as [Hp|Hp]; try reflexivity; exfalso.
  - apply (ri_children _ _ Hinv) in Hin. destruct Hin as [nd0 [Hl0 Hp0]].
    rewrite Hl in Hl0. injection Hl0 as <-. exact (Hp Hp0).
  - apply Hnin, (ri_children _ _ Hinv). exists nd. auto.
Qed.

Lemma backpropagate_root_children_visits (fuel : nat) (st : store) (root : MCTSNode)
    (y : nat) (won : bool) (st' : store) :
  root_inv st root -> (y < length st)%nat ->
  backpropagate fuel st (Some y) won = Ok st' ->
  tree_inv st'
  /\ root_children_visits st' = (root_children_visits st + (if decide (y = 0%nat) then 0 else 1))%nat.
Proof.
  revert st root y. induction fuel as [|fuel IH]; intros st root y Hinv Hy H; [discriminate|].
  simpl in H. inv_bind H as nd Hnd. apply of_option_Ok in Hnd.
  destruct (root_inv_bump st root y nd won Hinv Hnd) as (root1 & Hinv1 & _ & Hsum1).
  destruct (decide (y = 0%nat)) as [->|Hy0].
  - rewrite (ri_root _ _ Hinv) in Hnd. injection Hnd as <-.
    rewrite (ri_root_parent _ _ Hinv) in H.
    assert (Hst' : st' = <[0%nat := bump root won]> st) by (destruct fuel; simpl in H; congruence).
    subst st'.
    split; [exists root1; exact Hinv1|]. rewrite Hsum1, (ri_root_parent _ _ Hinv).
    rewrite decide_False by discriminate. reflexivity.
  - destruct (ri_parents _ _ Hinv y nd Hnd Hy0) as [p [Hp Hpy]].
    rewrite Hp in H.
    assert (Hp' : (p < length (<[y := bump nd won]> st))%nat) by (rewrite length_insert; lia).
    destruct (IH _ _ _ Hinv1 Hp' H) as [Hinv' Hsum'].
    split; [exact Hinv'|]. rewrite Hsum', Hsum1, Hp.
    repeat case_decide; simplify_eq; lia.
Qed.

Lemma root_inv_child_lt (st : store) (root : MCTSNode) (j : nat) :
  root_inv st root -> j ∈ map snd (child_nodes root) -> (j < length st)%nat /\ j <> 0%nat.
Proof.
  intros Hinv Hj. apply (ri_children _ _ Hinv) in Hj. destruct Hj as [nd [Hl Hp]].
  split; [apply lookup_lt_is_Some; rewrite Hl; done|].
  intros ->. rewrite (ri_root _ _ Hinv) in Hl. injection Hl as <-.
  rewrite (ri_root_parent _ _ Hinv) in Hp. discriminate.
Qed.

Lemma expand_leaf_root_inv {State} (board : Board State) (st : store) (root : MCTSNode)
    (x : nat) (nd : MCTSNode) (u : list Action) (a : Action) (state : State)
    (st1 : store) (leaf : option nat) (s1 : State) :
  root_inv st root -> st !! x = Some nd -> untried_actions nd = u ++ [a] ->
  expand_leaf board st x state = Ok (st1, leaf, s1) ->
  leaf = Some (length st) /\ (length st < length st1)%nat /\ tree_inv st1
  /\ root_children_visits st1 = root_children_visits st.
Proof.
  intros Hinv Hl Hu H.
  assert (Hlt : (x < length st)%nat) by (apply lookup_lt_is_Some; rewrite Hl; done).
  unfold expand_leaf, lookup_node in H. rewrite Hl in H. simpl in H.
  rewrite Hu, list_pop_snoc in H. injection H as <- <- _.
  set (m := length st).
  set (nd' := set_expansion nd u (dict_set a m (child_nodes nd))).
  set (nw := new_node (Some x) (Some a) (legal_actions board (next_state board state a))).
  pose proof (fun j => lookup_expanded st x j nd' nw Hlt) as Hlk.
  fold m in Hlk.
  assert (Hvis : forall j, (j < m)%nat -> node_visits (<[x := nd']> st ++ [nw]) j = node_visits st j).
  { intros j Hj. unfold node_visits. rewrite Hlk.
    destruct (decide (j = x)) as [->|]; [rewrite Hl; reflexivity|].
    rewrite decide_False by lia. reflexivity. }
  split; [reflexivity|]. split; [rewrite length_app, length_insert; simpl; lia|].
  destruct (decide (x = 0%nat)) as [->|Hx0].
  - (* expansion of the root: one more root child, the new node *)
    rewrite (ri_root _ _ Hinv) in Hl. injection Hl as <-.
    assert (Hfresh : a ∉ map fst (child_nodes root)).
    { pose proof (ri_fresh _ _ Hinv) as Hnd. rewrite Hu in Hnd.
      apply NoDup_app in Hnd as (_ & Hdisj & _).
      intros Hin. apply (Hdisj a); [apply elem_of_app; right; apply list_elem_of_here|exact Hin]. }
    assert (Hcs : child_nodes nd' = child_nodes root ++ [(a, m)])
      by (unfold nd', set_expansion; simpl; apply dict_set_fresh; exact Hfresh).
    assert (Hvals : map snd (child_nodes nd') = map snd (child_nodes root) ++ [m])
      by (rewrite Hcs, map_app; reflexivity).
    assert (Hm0 : m <> 0%nat) by lia.
    split.
    + exists nd'. constructor.
      * rewrite Hlk. reflexivity.
      * apply (ri_root_parent _ _ Hinv).
      * intros j ndj Hj Hj0. rewrite Hlk in Hj.
        rewrite decide_False in Hj by exact Hj0.
        destruct (decide (j = m)) as [->|Hjm].
        -- injection Hj as <-. exists 0%nat. split; [reflexivity|lia].
        -- exact (ri_parents _ _ Hinv j ndj Hj Hj0).
      * intros j. rewrite Hvals, elem_of_app, list_elem_of_singleton. split.
        -- intros [Hj| ->].
           ++ destruct (root_inv_child_lt _ _ _ Hinv Hj) as [Hjl Hj0].
              apply (ri_children _ _ Hinv) in Hj. destruct Hj as [ndj [Hj Hp]].
              exists ndj. rewrite Hlk, decide_False, decide_False by lia. auto.
           ++ exists nw. rewrite Hlk, decide_False, decide_True by (auto || lia). auto.
        -- intros [ndj [Hj Hp]]. rewrite Hlk in Hj.
           destruct (decide (j = 0%nat)) as [->|Hj0].
           ++ injection Hj as <-. unfold nd', set_expansion in Hp. simpl in Hp.
              rewrite (ri_root_parent _ _ Hinv) in Hp. discriminate.
           ++ destruct (decide (j = m)) as [->|Hjm]; [right; reflexivity|].
              left. apply (ri_children _ _ Hinv). eauto.
      * rewrite Hvals. apply NoDup_app. split; [apply (ri_children_nodup _ _ Hinv)|].
        split; [|apply NoDup_singleton].
        intros j Hj Hjm. apply list_elem_of_singleton in Hjm. subst j.
        destruct (root_inv_child_lt _ _ _ Hinv Hj). lia.
      * unfold nd', set_expansion. simpl. rewrite dict_set_fresh by exact Hfresh.
        pose proof (ri_fresh _ _ Hinv) as Hnd. rewrite Hu in Hnd.
        rewrite map_app. simpl.
        assert (Hperm : u ++ map fst (child_nodes root) ++ [a]
                        ≡ₚ (u ++ [a]) ++ map fst (child_nodes root))
          by (rewrite <- !app_assoc; apply Permutation_app_head, Permutation_app_comm).
        rewrite Hperm. exact Hnd.
      * right. rewrite Hcs. destruct (child_nodes root); discriminate.
    + rewrite (root_children_visits_of _ nd') by (rewrite Hlk; reflexivity).
      rewrite (root_children_visits_of _ root) by exact (ri_root _ _ Hinv).
      rewrite Hvals, sum_list_with_app. simpl.
      unfold node_visits at 2. rewrite Hlk, decide_False, decide_True by (auto || lia). simpl.
      rewrite Nat.add_0_r.
      apply sum_list_with_ext. intros j Hj. apply Hvis.
      exact (proj1 (root_inv_child_lt _ _ _ Hinv Hj)).
  - (* expansion below the root: the root and its children keep their counts *)
    assert (Hr : (<[x := nd']> st ++ [nw]) !! 0%nat = Some root).
    { rewrite Hlk, decide_False, decide_False by lia. apply (ri_root _ _ Hinv). }
    split.
    + exists root. constructor.
      * exact Hr.
      * apply (ri_root_parent _ _ Hinv).
      * intros j ndj Hj Hj0. rewrite Hlk in Hj.
        destruct (decide (j = x)) as [->|Hjx].
        -- injection Hj as <-. exact (ri_parents _ _ Hinv x nd Hl Hj0).
        -- destruct (decide (j = m)) as [->|Hjm].
           ++ injection Hj as <-. exists x. split; [reflexivity|lia].
           ++ exact (ri_parents _ _ Hinv j ndj Hj Hj0).
      * intros j. rewrite (ri_children _ _ Hinv j). split.
        -- intros [ndj [Hj Hp]].
           assert (Hjl : (j < m)%nat) by (apply lookup_lt_is_Some; rewrite Hj; done).
           rewrite Hlk. destruct (decide (j = x)) as [->|Hjx].
           ++ rewrite Hl in Hj. injection Hj as <-. exists nd'. auto.
           ++ rewrite decide_False by lia. eauto.
        -- intros [ndj [Hj Hp]]. rewrite Hlk in Hj.
           destruct (decide (j = x)) as [->|Hjx].
           ++ injection Hj as <-. exists nd. auto.
           ++ destruct (decide (j = m)) as [->|Hjm].
              ** injection Hj as <-. simpl in Hp. congruence.
              ** eauto.
      * apply (ri_children_nodup _ _ Hinv).
      * apply (ri_fresh _ _ Hinv).
      * apply (ri_nonempty _ _ Hinv).
    + rewrite (root_children_visits_of _ root) by exact Hr.
      rewrite (root_children_visits_of _ root) by exact (ri_root _ _ Hinv).
      apply sum_list_with_ext. intros j Hj. apply Hvis.
      exact (proj1 (root_inv_child_lt _ _ _ Hinv Hj)).
Qed.

Lemma descend_cond_false (nd : MCTSNode) :
  descend_cond nd = false -> untried_actions nd <> [] \/ child_nodes nd = [].
Proof.
  unfold descend_cond. intros H. apply andb_false_iff in H as [H|H].
  - left. intros E. rewrite bool_decide_eq_true_2 in H by exact E. discriminate.
  - right. destruct (child_nodes nd) as [|c cs]; [reflexivity|].
    rewrite bool_decide_eq_true_2 in H by discriminate. discriminate.
Qed.

Lemma traverse_nodes_stops {State} (board : Board State) (fuel : nat) (st : store)
    (node : nat) (state : State) (bot : Z) (x : nat) (s : State) :
  traverse_nodes board fuel st node state bot = Ok (x, s) ->
  exists nd, st !! x = Some nd /\ descend_cond nd = false.
Proof.
  revert node state. induction fuel as [|fuel IH]; intros node state H; [discriminate|].
  simpl in H. inv_bind H as nd Hnd. apply of_option_Ok in Hnd.
  destruct (descend_cond nd) eqn:Hc.
  - inv_bind H as bc Hbc. destruct bc as [c|].
    + inv_bind H as cn Hcn. inv_bind H as pa Hpa. exact (IH _ _ H).
    + exact (IH _ _ H).
  - injection H as <- _. exists nd. auto.
Qed.

Lemma select_loop_stops {State} (board : Board State) (fuel : nat) (st : store)
    (node : nat) (state : State) (bot : Z) (x : nat) (s : State) :
  select_loop board fuel st node state bot = Ok (x, s) ->
  exists nd, st !! x = Some nd /\ descend_cond nd = false.
Proof.
  revert node state. induction fuel as [|fuel IH]; intros node state H; [discriminate|].
  simpl in H. inv_bind H as nd Hnd. apply of_option_Ok in Hnd.
  destruct (descend_cond nd) eqn:Hc.
  - inv_bind H as sel Hsel. destruct sel as [node' state']. exact (IH _ _ H).
  - injection H as <- _. exists nd. auto.
Qed.

(** Every completed iteration adds exactly one visit below the root. *)
Lemma mcts_iteration_root_children_visits {State} (board : Board State) (fuel : nat)
    (bot : Z) (s0 : State) (rollout : State -> result State) (st st' : store) :
  tree_inv st -> mcts_iteration board fuel bot s0 rollout st = Ok st' ->
  tree_inv st' /\ root_children_visits st' = S (root_children_visits st).
Proof.
  intros [root Hinv] H. unfold mcts_iteration in H.
  inv_bind H as sel Hsel. destruct sel as [node state].
  destruct (select_loop_stops _ _ _ _ _ _ _ _ Hsel) as [ndx [Hx Hcond]].
  inv_bind H as nd Hnd. apply of_option_Ok in Hnd. rewrite Hx in Hnd. injection Hnd as <-.
  inv_bind H as ex Hex. destruct ex as [[st1 leaf] state1].
  inv_bind H as rs Hrs. inv_bind H as won Hwon.
  assert (Hlt : (node < length st)%nat) by (apply lookup_lt_is_Some; rewrite Hx; done).
  case_bool_decide as Hu.
  - destruct (exists_last Hu) as [u [a Hua]].
    destruct (expand_leaf_root_inv board st root node ndx u a state st1 leaf state1
                Hinv Hx Hua Hex) as (-> & Hlen & [root1 Hinv1] & Hsum1).
    destruct (backpropagate_root_children_visits _ _ _ _ _ _ Hinv1 Hlen H) as [Hinv' Hsum'].
    split; [exact Hinv'|]. rewrite Hsum', Hsum1.
    rewrite decide_False by lia. lia.
  - injection Hex as <- <- _.
    assert (Hnode0 : node <> 0%nat).
    { intros ->. rewrite (ri_root _ _ Hinv) in Hx. injection Hx as <-.
      destruct (descend_cond_false _ Hcond) as [Hne|Hnil]; [exact (Hne Hu)|].
      destruct (ri_nonempty _ _ Hinv) as [Hne|Hne]; [exact (Hne Hu)|exact (Hne Hnil)]. }
    destruct (backpropagate_root_children_visits _ _ _ _ _ _ Hinv Hlt H) as [Hinv' Hsum'].
    split; [exact Hinv'|]. rewrite Hsum', decide_False by exact Hnode0. lia.
Qed.

Lemma search_loop_root_children_visits {State} (board : Board State) (fuel : nat)
    (bot : Z) (s0 : State) (rollouts : nat -> State -> result State) (k n : nat)
    (st st' : store) :
  tree_inv st -> search_loop board fuel bot s0 rollouts k n st = Ok st' ->
  root_children_visits st' = (root_children_visits st + n)%nat.
Proof.
  revert k st. induction n as [|n IH]; intros k st Hinv H; simpl in H.
  - injection H as <-. lia.
  - inv_bind H as st1 Hst1.
    destruct (mcts_iteration_root_children_visits _ _ _ _ _ _ _ Hinv Hst1) as [Hinv1 Hsum1].
    rewrite (IH _ _ Hinv1 H), Hsum1. lia.
Qed.

Lemma root_inv_fresh_root (acts : list Action) :
  acts <> [] -> NoDup acts -> root_inv [new_node None None acts] (new_node None None acts).
Proof.
  intros Hne Hnd. constructor.
  - reflexivity.
  - reflexivity.
  - intros i nd Hi Hi0. destruct i as [|i]; [lia|]. simpl in Hi.
    rewrite lookup_nil in Hi. discriminate.
  - intros j. simpl. split.
    + intros Hj. inversion Hj.
    + intros [nd [Hj Hp]]. destruct j as [|j]; simpl in Hj.
      * injection Hj as <-. discriminate.
      * rewrite lookup_nil in Hj. discriminate.
  - constructor.
  - simpl. rewrite app_nil_r. exact Hnd.
  - left. exact Hne.
Qed.

(** Claim C4: from a fresh root whose state has at least one legal action (the
    board lists each legal action once), once the search has completed its
    [n] iterations the visits of the root's children add up to [n]: no
    iteration's backpropagation starts at the root itself. *)
Lemma search_root_children_visits {State} (board : Board State) (fuel n : nat)
    (s0 : State) (rollouts : nat -> State -> result State) (st : store) :
  legal_actions board s0 <> [] -> NoDup (legal_actions board s0) ->
  search board fuel n s0 rollouts = Ok st ->
  root_children_visits st = n.
Proof.
  intros Hne Hnd H. unfold search in H.
  pose proof (root_inv_fresh_root _ Hne Hnd) as Hinv.
  rewrite (search_loop_root_children_visits _ _ _ _ _ _ _ _ _ (ex_intro _ _ Hinv) H).
  reflexivity.
Qed.

Lemma search_root_children_visits_witness :
  legal_actions toy_board [] <> []
  /\ NoDup (legal_actions toy_board [])
  /\ search toy_board 10%nat 2%nat [] toy_rollouts = Ok toy_search_result
  /\ root_children_visits toy_search_result = 2%nat.
Proof.
  assert (Hne : legal_actions toy_board [] <> []) by (simpl; discriminate).
  assert (Hnd : NoDup (legal_actions toy_board []))
    by (apply (bool_decide_unpack (NoDup (legal_actions toy_board []))); vm_compute; exact I).
  assert (Hs : search toy_board 10%nat 2%nat [] toy_rollouts = Ok toy_search_result)
    by (vm_compute; reflexivity).
  split; [exact Hne|]. split; [exact Hnd|]. split; [exact Hs|].
  exact (search_root_children_visits toy_board 10 2 [] toy_rollouts toy_search_result Hne Hnd Hs).
Defined.

(** ** Untried actions are never children keys in engine-built trees *)

Lemma fresh_after_pop (u : list Action) (a : Action) (cs : list (Action * nat)) (m : nat) :
  NoDup ((u ++ [a]) ++ map fst cs) ->
  a ∉ map fst cs /\ NoDup (u ++ map fst (dict_set a m cs)).
Proof.
  intros Hnd.
  assert (Hfresh : a ∉ map fst cs).
  { pose proof Hnd as Hnd'. apply NoDup_app in Hnd' as (_ & Hdisj & _).
    intros Hin. apply (Hdisj a); [apply elem_of_app; right; apply list_elem_of_here|exact Hin]. }
  split; [exact Hfresh|].
  rewrite dict_set_fresh by exact Hfresh. rewrite map_app. simpl.
  assert (Hperm : u ++ map fst cs ++ [a] ≡ₚ (u ++ [a]) ++ map fst cs)
    by (rewrite <- !app_assoc; apply Permutation_app_head, Permutation_app_comm).
  rewrite Hperm. exact Hnd.
Qed.

Section FreshUntried.
Context {State : Type} (board : Board State).
Hypothesis legal_nodup : forall s, NoDup (legal_actions board s).

Lemma expand_leaf_fresh_untried (st : store) (node : nat) (state : State) (st' : store)
    (leaf : option nat) (state' : State) :
  fresh_untried st -> expand_leaf board st node state = Ok (st', leaf, state') ->
  fresh_untried st'.
Proof.
  intros Hst H. unfold expand_leaf in H. inv_bind H as nd Hnd. apply of_option_Ok in Hnd.
  destruct (list_pop (untried_actions nd)) as [[u a]|] eqn:Hpop.
  - injection H as <- _ _. apply list_pop_Some in Hpop.
    pose proof (proj1 (Forall_lookup _ st) Hst node nd Hnd) as Hfr. simpl in Hfr.
    rewrite Hpop in Hfr.
    apply Forall_app. split.
    + apply Forall_insert; [exact Hst|]. unfold set_expansion. simpl.
      exact (proj2 (fresh_after_pop u a (child_nodes nd) (length st) Hfr)).
    + constructor; [|constructor]. simpl. rewrite app_nil_r. apply legal_nodup.
  - injection H as <- _ _. exact Hst.
Qed.

Lemma backpropagate_fresh_untried (fuel : nat) (st : store) (x : option nat) (won : bool)
    (st' : store) :
  fresh_untried st -> backpropagate fuel st x won = Ok st' -> fresh_untried st'.
Proof.
  revert st x. induction fuel as [|fuel IH]; intros st x Hst H.
  - destruct x; simpl in H; [discriminate|]. congruence.
  - destruct x as [i|]; simpl in H; [|congruence].
    inv_bind H as nd Hm. apply of_option_Ok in Hm.
    refine (IH _ _ _ H). apply Forall_insert; [exact Hst|].
    pose proof (proj1 (Forall_lookup _ st) Hst i nd Hm) as Hfr.
    unfold bump. destruct won; exact Hfr.
Qed.

Lemma search_fresh_untried (fuel n : nat) (s0 : State)
    (rollouts : nat -> State -> result State) (st : store) :
  search board fuel n s0 rollouts = Ok st -> fresh_untried st.
Proof.
  unfold search. generalize 0%nat as k.
  assert (H0 : fresh_untried [new_node None None (legal_actions board s0)]).
  { constructor; [|constructor]. simpl. rewrite app_nil_r. apply legal_nodup. }
  revert H0. generalize [new_node None None (legal_actions board s0)] as st0.
  induction n as [|n IH]; intros st0 H0 k H; simpl in H; [congruence|].
  inv_bind H as st1 Hst1. refine (IH st1 _ (S k) H).
  unfold mcts_iteration in Hst1.
  inv_bind Hst1 as sel Hsel. destruct sel as [node state].
  inv_bind Hst1 as nd Hnd. inv_bind Hst1 as ex Hex. destruct ex as [[st2 leaf] state2].
  inv_bind Hst1 as rs Hrs. inv_bind Hst1 as won Hwon.
  refine (backpropagate_fresh_untried _ _ _ _ _ _ Hst1).
  case_bool_decide.
  - exact (expand_leaf_fresh_untried _ _ _ _ _ _ H0 Hex).
  - injection Hex as <- _ _. exact H0.
Qed.

End FreshUntried.

(** * Further properties of the engine *)

(** ** [winning_move] *)

(** [winning_move] answers [True] exactly when some legal action leads to a
    scored state in which [player] gets the value 1; in particular it answers
    [False] when there is no legal action. *)
Lemma winning_move_spec {State} (board : Board State) (s : State) (player : Z) :
  winning_move board s player = true <->
  exists a pv, a ∈ legal_actions board s
    /\ points_values board (next_state board s a) = Some pv /\ pv player = 1.
Proof.
  unfold winning_move. induction (legal_actions board s) as [|x acts IH]; simpl.
  - split; [discriminate|]. intros (a & pv & Hin & _). inversion Hin.
  - assert (Htail : (exists a pv, a ∈ acts /\ points_values board (next_state board s a) = Some pv
                       /\ pv player = 1) ->
                    exists a pv, a ∈ x :: acts
                      /\ points_values board (next_state board s a) = Some pv /\ pv player = 1).
    { intros (a & pv & Hin & H1 & H2). exists a, pv. split; [apply elem_of_cons; right; exact Hin|auto]. }
    destruct (points_values board (next_state board s x)) as [pv|] eqn:Hpv.
    + case_bool_decide as Hp.
      * split; [intros _; exists x, pv; split; [apply list_elem_of_here|auto]|reflexivity].
      * rewrite IH. split; [exact Htail|].
        intros (a & pv' & Hin & H1 & H2). apply elem_of_cons in Hin as [->|Hin].
        -- rewrite Hpv in H1. injection H1 as <-. contradiction.
        -- exists a, pv'. auto.
    + rewrite IH. split; [exact Htail|].
      intros (a & pv' & Hin & H1 & H2). apply elem_of_cons in Hin as [->|Hin].
      * congruence.
      * exists a, pv'. auto.
Qed.

(** ** The greedy choice of the heuristic rollout *)

Lemma heuristic_above_sentinel {State} (board : Board State) (s : State) (opp cp : Z)
    (a : Action) :
  best_score_sentinel < heuristic board s opp cp a.
Proof.
  unfold heuristic, best_score_sentinel. destruct (win_values board s); repeat case_bool_decide; lia.
Qed.

Lemma heuristic_win_bound {State} (board : Board State) (s : State) (opp cp : Z) (a : Action) :
  cp <> opp -> win_values board s <> None -> 100000000000 <= heuristic board s opp cp a.
Proof.
  intros Hcp Hw. unfold heuristic. rewrite bool_decide_eq_true_2 by exact Hcp.
  destruct (win_values board s); [|congruence]. repeat case_bool_decide; lia.
Qed.

Lemma heuristic_no_win_bound {State} (board : Board State) (s : State) (opp cp : Z) (a : Action) :
  cp <> opp -> win_values board s = None -> heuristic board s opp cp a <= 100000600.
Proof.
  intros Hcp Hw. unfold heuristic. rewrite bool_decide_eq_true_2 by exact Hcp.
  rewrite Hw. repeat case_bool_decide; lia.
Qed.

Lemma greedy_scan_Some_stays {State} (board : Board State) (s : State) (opp cp : Z)
    (acts : list Action) (bs : Z) (b : Action) :
  greedy_scan board s opp cp acts bs (Some b) <> None.
Proof.
  revert bs b. induction acts as [|x acts IH]; intros bs b; simpl; [discriminate|].
  case_bool_decide; apply IH.
Qed.

Lemma greedy_scan_mem {State} (board : Board State) (s : State) (opp cp : Z)
    (acts : list Action) (bs : Z) (ba : option Action) (a : Action) :
  greedy_scan board s opp cp acts bs ba = Some a -> ba = Some a \/ a ∈ acts.
Proof.
  revert bs ba. induction acts as [|x acts IH]; intros bs ba H; simpl in H; [left; exact H|].
  case_bool_decide; apply IH in H as [H|H].
  - injection H as ->. right. apply list_elem_of_here.
  - right. apply elem_of_cons. right. exact H.
  - left. exact H.
  - right. apply elem_of_cons. right. exact H.
Qed.

Lemma greedy_action_mem {State} (board : Board State) (s : State) (opp cp : Z) (a : Action) :
  greedy_action board s opp cp = Some a -> a ∈ legal_actions board s.
Proof.
  unfold greedy_action. intros H.
  destruct (greedy_scan_mem _ _ _ _ _ _ _ _ H) as [H'|H']; [discriminate|exact H'].
Qed.

Lemma greedy_action_None_iff {State} (board : Board State) (s : State) (opp cp : Z) :
  greedy_action board s opp cp = None <-> legal_actions board s = [].
Proof.
  unfold greedy_action. destruct (legal_actions board s) as [|x acts]; simpl; [split; auto|].
  rewrite bool_decide_eq_true_2 by apply heuristic_above_sentinel.
  split; [intros H; exfalso; exact (greedy_scan_Some_stays _ _ _ _ _ _ _ H)|discriminate].
Qed.

(** The rollout's scan always picks an action when the state has a legal one,
    since every heuristic score beats the initial [best_score], and the action
    picked is a legal one. *)
Lemma greedy_action_legal {State} (board : Board State) (s : State) (opp cp : Z) :
  (forall a, greedy_action board s opp cp = Some a -> a ∈ legal_actions board s)
  /\ (greedy_action board s opp cp = None <-> legal_actions board s = []).
Proof.
  split; [intros a; apply greedy_action_mem|apply greedy_action_None_iff].
Qed.

Lemma greedy_action_legal_witness :
  greedy_action toy_board [] 2 1 = Some toy_A /\ toy_A ∈ legal_actions toy_board [].
Proof.
  split; [reflexivity|].
  apply (proj1 (greedy_action_legal toy_board [] 2 1) toy_A). reflexivity.
Defined.

(** With the two players distinct (as in [rollout], where they always are), if
    some legal action leads to a won position, the rollout's scan picks an
    action leading to a won position: the win bonus outweighs every
    positional bonus. *)
Lemma greedy_action_prefers_win {State} (board : Board State) (s : State) (opp cp : Z)
    (a : Action) :
  cp <> opp -> a ∈ legal_actions board s -> win_values board (next_state board s a) <> None ->
  exists b, greedy_action board s opp cp = Some b /\ b ∈ legal_actions board s
    /\ win_values board (next_state board s b) <> None.
Proof.
  intros Hcp Ha Hw.
  destruct (greedy_action board s opp cp) as [b|] eqn:Hb.
  2: { apply greedy_action_None_iff in Hb. rewrite Hb in Ha. inversion Ha. }
  exists b. split; [reflexivity|]. split; [exact (greedy_action_mem _ _ _ _ _ Hb)|].
  intros Hwb. unfold greedy_action in Hb.
  pose proof (heuristic_win_bound board (next_state board s a) opp cp a Hcp Hw) as Ha1.
  pose proof (heuristic_no_win_bound board (next_state board s b) opp cp b Hcp Hwb) as Hb1.
  destruct (greedy_scan_spec _ _ _ _ _ _ _ _ Hb)
    as [[Hn _]|(pre & post & Heq & _ & Hpre & Hpost)]; [discriminate|].
  rewrite Heq in Ha. apply elem_of_app in Ha as [Ha|Ha].
  - specialize (Hpre a Ha). lia.
  - apply elem_of_cons in Ha as [->|Ha]; [contradiction|].
    specialize (Hpost a Ha). lia.
Qed.

Lemma greedy_action_prefers_win_witness :
  exists b, greedy_action toy_win_board [] 2 1 = Some b /\ b ∈ legal_actions toy_win_board []
    /\ win_values toy_win_board (next_state toy_win_board [] b) <> None.
Proof.
  apply (greedy_action_prefers_win toy_win_board [] 2 1 toy_B).
  - lia.
  - apply elem_of_cons. left. reflexivity.
  - simpl. discriminate.
Defined.

(** ** Rollouts *)

(** Both rollouts return only finished games: whatever [random.choice] picks,
    and for any fuel, a returned state is one where [is_ended] holds. *)
Lemma rollouts_end_in_terminal_state {State} (board : Board State)
    (choice : nat -> list Action -> result Action) (fuel : nat) (s t : State) :
  (rollout_greedy board fuel s = Ok t -> is_ended board t = true)
  /\ (rollout_random board choice fuel s = Ok t -> is_ended board t = true).
Proof.
  split.
  - unfold rollout_greedy. generalize (current_player board s) as cp. intros cp.
    revert s. induction fuel as [|fuel IH]; intros s H; [discriminate|]. simpl in H.
    destruct (is_ended board s) eqn:He; [injection H as <-; exact He|].
    inv_bind H as b Hb. exact (IH _ H).
  - unfold rollout_random. generalize 0%nat as k.
    revert s. induction fuel as [|fuel IH]; intros s k H; [discriminate|]. simpl in H.
    destruct (is_ended board s) eqn:He; [injection H as <-; exact He|].
    inv_bind H as b Hb. exact (IH _ _ H).
Qed.

Lemma rollouts_end_in_terminal_state_witness :
  rollout_greedy toy_board 10 [] = Ok [toy_A; toy_A]
  /\ is_ended toy_board [toy_A; toy_A] = true
  /\ rollout_random toy_board (fun _ l => of_option (head l)) 10 [] = Ok [toy_B; toy_B]
  /\ is_ended toy_board [toy_B; toy_B] = true.
Proof.
  assert (H1 : rollout_greedy toy_board 10 [] = Ok [toy_A; toy_A]) by reflexivity.
  assert (H2 : rollout_random toy_board (fun _ l => of_option (head l)) 10 [] = Ok [toy_B; toy_B])
    by reflexivity.
  split; [exact H1|]. split.
  - exact (proj1 (rollouts_end_in_terminal_state toy_board (fun _ l => of_option (head l))
                    10 [] [toy_A; toy_A]) H1).
  - split; [exact H2|].
    exact (proj2 (rollouts_end_in_terminal_state toy_board (fun _ l => of_option (head l))
                    10 [] [toy_B; toy_B]) H2).
Defined.

(** ** [ucb] *)

(** Seen from the opponent's side, a child's UCB is the UCB the bot would give
    it if its losses [visits - wins] were counted as wins. *)
Lemma ucb_value_opponent_is_losses (w v pv : nat) :
  (w <= v)%nat -> (0 < v)%nat ->
  ucb_value w v pv true = ucb_value (v - w) v pv false.
Proof.
  intros Hwv Hv. unfold ucb_value. rewrite minus_INR by exact Hwv.
  assert (HvR : INR v <> 0%R) by (apply not_0_INR; lia).
  f_equal. field. exact HvR.
Qed.

Lemma ucb_value_opponent_is_losses_witness :
  ucb_value 1 3 4 true = ucb_value 2 3 4 false.
Proof. exact (ucb_value_opponent_is_losses 1 3 4 ltac:(lia) ltac:(lia)). Defined.

(** ** The selection scan of [traverse_nodes] *)

Lemma scan_children_mem (st : store) (b : bool) (cs : list (Action * nat)) (bu : R)
    (bc : option nat) (c : nat) :
  scan_children st b cs bu bc = Ok (Some c) -> bc = Some c \/ c ∈ map snd cs.
Proof.
  revert bu bc. induction cs as [|[a0 c0] cs IH]; intros bu bc H; simpl in H.
  - left. congruence.
  - inv_bind H as u Hu. destruct (Rlt_dec bu u); apply IH in H as [H|H].
    + injection H as ->. right. apply list_elem_of_here.
    + right. apply elem_of_cons. right. exact H.
    + left. exact H.
    + right. apply elem_of_cons. right. exact H.
Qed.

(** Children whose UCB can be evaluated: visited, with [wins <= visits], and
    whose parent is a visited node. *)
Lemma ucb_nonneg_valid (st : store) (c : nat) (b : bool) (cn pn : MCTSNode) (p : nat) :
  st !! c = Some cn -> (0 < visits cn)%nat -> (wins cn <= visits cn)%nat ->
  parent cn = Some p -> st !! p = Some pn -> (0 < visits pn)%nat ->
  exists u, ucb st c b = Ok u /\ (0 <= u)%R.
Proof.
  intros Hc Hv Hw Hp Hpn Hpv. unfold ucb, lookup_node. rewrite Hc. simpl.
  rewrite decide_False by lia. rewrite Hp. simpl. rewrite Hpn. simpl.
  rewrite decide_False by lia. eexists. split; [reflexivity|].
  unfold ucb_value.
  pose proof (exploration_term_nonneg (visits pn) (visits cn)) as He.
  assert (HvR : (0 < INR (visits cn))%R) by (apply lt_0_INR; lia).
  assert (Hle : (INR (wins cn) <= INR (visits cn))%R) by (apply le_INR; exact Hw).
  assert (H0 : (0 <= INR (wins cn) / INR (visits cn))%R)
    by (unfold Rdiv; apply Rmult_le_pos; [apply pos_INR|left; apply Rinv_0_lt_compat; exact HvR]).
  assert (H1 : (INR (wins cn) / INR (visits cn) <= 1)%R).
  { apply (Rmult_le_reg_r (INR (visits cn))); [exact HvR|].
    unfold Rdiv. rewrite Rmult_assoc, Rinv_l by lra. lra. }
  destruct b; lra.
Qed.

Lemma scan_children_keeps_Some (st : store) (b : bool) (cs : list (Action * nat)) (bu : R)
    (c0 : nat) (r : option nat) :
  scan_children st b cs bu (Some c0) = Ok r -> r <> None.
Proof.
  revert bu c0. induction cs as [|[a1 c1] cs IH]; intros bu c0 H; simpl in H.
  - congruence.
  - inv_bind H as u Hu. destruct (Rlt_dec bu u); exact (IH _ _ H).
Qed.

Lemma scan_children_total (st : store) (b : bool) (cs : list (Action * nat)) (bu : R)
    (bc : option nat) :
  (forall a c, (a, c) ∈ cs -> exists u, ucb st c b = Ok u) ->
  exists r, scan_children st b cs bu bc = Ok r.
Proof.
  revert bu bc. induction cs as [|[a0 c0] cs IH]; intros bu bc Hcs; simpl; [eauto|].
  destruct (Hcs a0 c0 (list_elem_of_here _ _)) as [u Hu]. rewrite Hu. simpl.
  assert (Hcs' : forall a c, (a, c) ∈ cs -> exists u, ucb st c b = Ok u)
    by (intros a c Hin; apply (Hcs a c), elem_of_cons; right; exact Hin).
  destruct (Rlt_dec bu u); apply IH; exact Hcs'.
Qed.

(** The selection scan on children that can all be rated: the first child
    already scores at least 0, above the sentinel, so the scan never ends
    without a child. *)
Lemma scan_children_picks_child (st : store) (b : bool) (cs : list (Action * nat)) :
  (forall a c, (a, c) ∈ cs -> exists cn p pn, st !! c = Some cn /\ (0 < visits cn)%nat
     /\ (wins cn <= visits cn)%nat /\ parent cn = Some p /\ st !! p = Some pn
     /\ (0 < visits pn)%nat) ->
  (forall a0 c0 cs', cs = (a0, c0) :: cs' ->
     exists u0, ucb st c0 b = Ok u0 /\ (sentinel_ucb < u0)%R)
  /\ (cs <> [] -> exists c, scan_children st b cs sentinel_ucb None = Ok (Some c)
                            /\ c ∈ map snd cs).
Proof.
  intros Hcs.
  assert (Hok : forall a c, (a, c) ∈ cs -> exists u, ucb st c b = Ok u /\ (0 <= u)%R).
  { intros a c Hin. destruct (Hcs a c Hin) as (cn & p & pn & H1 & H2 & H3 & H4 & H5 & H6).
    exact (ucb_nonneg_valid st c b cn pn p H1 H2 H3 H4 H5 H6). }
  split.
  { intros a0 c0 cs' ->. destruct (Hok a0 c0 (list_elem_of_here _ _)) as [u [Hu Hu0]].
    exists u. split; [exact Hu|]. unfold sentinel_ucb. lra. }
  intros Hne.
  destruct cs as [|[a0 c0] cs]; [congruence|].
  destruct (Hok a0 c0 (list_elem_of_here _ _)) as [u [Hu Hu0]].
  assert (Hcs' : forall a c, (a, c) ∈ cs -> exists u, ucb st c b = Ok u).
  { intros a c Hin. destruct (Hok a c) as [u' [Hu' _]];
      [apply elem_of_cons; right; exact Hin|eauto]. }
  simpl. rewrite Hu. simpl.
  destruct (Rlt_dec sentinel_ucb u) as [_|Hn]; [|exfalso; unfold sentinel_ucb in Hn; lra].
  destruct (scan_children_total st b cs u (Some c0) Hcs') as [r Hr].
  destruct r as [c|]; [|exact (False_rect _ (scan_children_keeps_Some _ _ _ _ _ _ Hr eq_refl))].
  exists c. split; [exact Hr|].
  destruct (scan_children_mem _ _ _ _ _ _ Hr) as [H|H].
  - injection H as <-. apply list_elem_of_here.
  - simpl. apply elem_of_cons. right. exact H.
Qed.

(** When every child is visited, has [wins <= visits] and a visited parent,
    the selection scan of [traverse_nodes] does not fault and its first child
    already beats the -9999 sentinel (its UCB value is defined and strictly
    above it); so the scan always returns one of the children and the loop
    always descends. *)
Lemma scan_children_beats_sentinel (st : store) (b : bool) (cs : list (Action * nat)) :
  cs <> [] ->
  (forall a c, (a, c) ∈ cs -> exists cn p pn, st !! c = Some cn /\ (0 < visits cn)%nat
     /\ (wins cn <= visits cn)%nat /\ parent cn = Some p /\ st !! p = Some pn
     /\ (0 < visits pn)%nat) ->
  (forall a0 c0 cs', cs = (a0, c0) :: cs' ->
     exists u0, ucb st c0 b = Ok u0 /\ (sentinel_ucb < u0)%R)
  /\ exists c, scan_children st b cs sentinel_ucb None = Ok (Some c) /\ c ∈ map snd cs.
Proof.
  intros Hne Hcs. destruct (scan_children_picks_child st b cs Hcs) as [H1 H2].
  split; [exact H1|exact (H2 Hne)].
Qed.

Lemma scan_children_beats_sentinel_witness :
  (exists u0, ucb two_children_store 1 true = Ok u0 /\ (sentinel_ucb < u0)%R)
  /\ exists c, scan_children two_children_store true (child_nodes (mk_node None None
    [(toy_A, 1%nat); (toy_B, 2%nat)] [] 2 1)) sentinel_ucb None = Ok (Some c)
    /\ c ∈ map snd [(toy_A, 1%nat); (toy_B, 2%nat)].
Proof.
  destruct (scan_children_beats_sentinel two_children_store true
              [(toy_A, 1%nat); (toy_B, 2%nat)]) as [H1 H2].
  - simpl; discriminate.
  - intros a c Hin. simpl in Hin.
    apply elem_of_cons in Hin as [Hin|Hin];
      [injection Hin as -> ->; do 3 eexists; repeat split; try reflexivity; simpl; lia|].
    apply elem_of_cons in Hin as [Hin|Hin];
      [injection Hin as -> ->; do 3 eexists; repeat split; try reflexivity; simpl; lia|].
    inversion Hin.
  - split; [exact (H1 toy_A 1%nat [(toy_B, 2%nat)] eq_refl)|exact H2].
Defined.

(** ** [get_best_action] *)

(** If some child of the root has no visit (or is missing), [get_best_action]
    raises: [child.wins / child.visits] is evaluated for every child. *)
Lemma get_best_action_unvisited_child_faults (st : store) (root : nat) (r : MCTSNode)
    (a : Action) (c : nat) :
  st !! root = Some r -> (a, c) ∈ child_nodes r ->
  (forall cn, st !! c = Some cn -> visits cn = 0%nat) ->
  get_best_action st root = Fault.
Proof.
  intros Hr Hin Hc. unfold get_best_action, lookup_node. rewrite Hr. simpl.
  generalize (-9999 # 1)%Q as bw. generalize (@None Action) as ba.
  induction (child_nodes r) as [|[a0 c0] cs IH]; intros ba bw; [inversion Hin|].
  simpl. apply elem_of_cons in Hin as [Hin|Hin].
  - injection Hin as <- <-. unfold lookup_node.
    destruct (st !! c) as [cn|] eqn:E; [|reflexivity]. simpl.
    rewrite decide_True by exact (Hc cn eq_refl). reflexivity.
  - unfold lookup_node. destruct (st !! c0) as [cn|]; [|reflexivity]. simpl.
    destruct (decide (visits cn = 0%nat)); [reflexivity|].
    destruct (Qle_bool _ _); apply IH; exact Hin.
Qed.

Lemma get_best_action_unvisited_child_faults_witness :
  get_best_action [mk_node None None [(toy_A, 1%nat)] [] 1 0;
                   mk_node (Some 0%nat) (Some toy_A) [] [] 0 0] 0 = Fault.
Proof.
  apply (get_best_action_unvisited_child_faults _ 0 (mk_node None None [(toy_A, 1%nat)] [] 1 0)
           toy_A 1).
  - reflexivity.
  - apply list_elem_of_here.
  - intros cn Hcn. simpl in Hcn. injection Hcn as <-. reflexivity.
Defined.

Lemma best_action_scan_mem (st : store) (cs : list (Action * nat)) (bw : Q)
    (ba : option Action) (a : Action) :
  best_action_scan st cs bw ba = Ok (Some a) -> ba = Some a \/ a ∈ map fst cs.
Proof.
  revert bw ba. induction cs as [|[a0 c0] cs IH]; intros bw ba H; simpl in H.
  - left. congruence.
  - inv_bind H as cn Hcn. destruct (decide (visits cn = 0%nat)); [discriminate|].
    destruct (Qle_bool _ _); apply IH in H as [H|H].
    + left. exact H.
    + right. apply elem_of_cons. right. exact H.
    + injection H as ->. right. apply list_elem_of_here.
    + right. apply elem_of_cons. right. exact H.
Qed.

(** The action returned by [get_best_action] is always a key of the root's
    children mapping. *)
Lemma get_best_action_in_children (st : store) (root : nat) (a : Action) :
  get_best_action st root = Ok (Some a) ->
  exists r, st !! root = Some r /\ a ∈ map fst (child_nodes r).
Proof.
  unfold get_best_action. intros H. inv_bind H as r Hr. apply of_option_Ok in Hr.
  exists r. split; [exact Hr|].
  destruct (best_action_scan_mem _ _ _ _ _ H) as [H'|H']; [discriminate|exact H'].
Qed.

Lemma get_best_action_in_children_witness :
  exists r, best_action_store !! 0%nat = Some r /\ toy_A ∈ map fst (child_nodes r).
Proof. apply get_best_action_in_children. reflexivity. Defined.

(** ** [traverse_nodes] *)

Lemma elem_of_map_snd (cs : list (Action * nat)) (c : nat) :
  c ∈ map snd cs -> exists a, (a, c) ∈ cs.
Proof.
  induction cs as [|[a0 c0] cs IH]; simpl; intros H; [inversion H|].
  apply elem_of_cons in H as [->|H].
  - exists a0. apply list_elem_of_here.
  - destruct (IH H) as [a Ha]. exists a. apply elem_of_cons. right. exact Ha.
Qed.

(** A node returned by [traverse_nodes] is reached from the start node by
    following child links, and the returned state is the start state with the
    [parent_action] of each child on the way replayed; the node returned still
    has untried actions or has no children. *)
Lemma traverse_nodes_reaches {State} (board : Board State) (fuel : nat) (st : store)
    (node : nat) (state : State) (bot : Z) (x : nat) (s : State) :
  traverse_nodes board fuel st node state bot = Ok (x, s) ->
  reaches board st node state x s
  /\ exists nd, st !! x = Some nd /\ (untried_actions nd <> [] \/ child_nodes nd = []).
Proof.
  revert node state. induction fuel as [|fuel IH]; intros node state H; [discriminate|].
  simpl in H. inv_bind H as nd Hnd. apply of_option_Ok in Hnd.
  destruct (descend_cond nd) eqn:Hc.
  - inv_bind H as bc Hbc. destruct bc as [c|].
    + inv_bind H as cn Hcn. inv_bind H as pa Hpa.
      apply of_option_Ok in Hcn. apply of_option_Ok in Hpa.
      destruct (IH _ _ H) as [Hr Hx]. split; [|exact Hx].
      destruct (scan_children_mem _ _ _ _ _ _ Hbc) as [E|Hin]; [discriminate|].
      apply elem_of_map_snd in Hin as [a Hin].
      exact (reaches_step board st node state nd a c cn pa x s Hnd Hin Hcn Hpa Hr).
    + exact (IH _ _ H).
  - injection H as <- <-. split; [constructor|].
    exists nd. split; [exact Hnd|]. exact (descend_cond_false _ Hc).
Qed.

Lemma traverse_nodes_reaches_witness :
  reaches toy_board two_children_store 0 [] 2 [toy_B]
  /\ exists nd, two_children_store !! 2%nat = Some nd
       /\ (untried_actions nd <> [] \/ child_nodes nd = []).
Proof.
  apply (traverse_nodes_reaches toy_board 2 two_children_store 0 [] 1).
  pose proof (exploration_term_nonneg 2 1) as He.
  cbn -[ucb Rlt_dec]. rewrite two_children_ucb_1.
  cbn -[ucb Rlt_dec ucb_value]. rewrite two_children_ucb_2. cbn -[ucb_value Rlt_dec].
  unfold ucb_value in *. cbn [INR] in *.
  destruct (Rlt_dec _ _) as [H1|H1]; [|exfalso; unfold sentinel_ucb in H1; lra].
  destruct (Rlt_dec _ _) as [H2|H2]; [|exfalso; lra].
  reflexivity.
Defined.

(** ** [backpropagate] *)

Lemma backpropagate_frame_aux (fuel : nat) (st : store) (x : option nat) (won : bool)
    (st' : store) :
  backpropagate fuel st x won = Ok st' ->
  length st' = length st
  /\ (forall j nd, st !! j = Some nd -> exists nd', st' !! j = Some nd'
        /\ parent nd' = parent nd /\ parent_action nd' = parent_action nd
        /\ child_nodes nd' = child_nodes nd /\ untried_actions nd' = untried_actions nd
        /\ (visits nd <= visits nd')%nat
        /\ wins nd' = (wins nd + (if won then visits nd' - visits nd else 0))%nat)
  /\ (forall y, x = Some y -> exists nd nd', st !! y = Some nd /\ st' !! y = Some nd'
        /\ (visits nd < visits nd')%nat).
Proof.
  assert (Hid : forall st0, length st0 = length st0
     /\ (forall j nd, st0 !! j = Some nd -> exists nd', st0 !! j = Some nd'
        /\ parent nd' = parent nd /\ parent_action nd' = parent_action nd
        /\ child_nodes nd' = child_nodes nd /\ untried_actions nd' = untried_actions nd
        /\ (visits nd <= visits nd')%nat
        /\ wins nd' = (wins nd + (if won then visits nd' - visits nd else 0))%nat)
     /\ (forall y, @None nat = Some y -> exists nd nd', st0 !! y = Some nd /\ st0 !! y = Some nd'
        /\ (visits nd < visits nd')%nat)).
  { intros st0. split; [reflexivity|]. split; [|intros y Hy; discriminate].
    intros j nd Hj. exists nd. repeat split; try reflexivity; try exact Hj; try lia.
    destruct won; lia. }
  revert st x. induction fuel as [|fuel IH]; intros st x H.
  - destruct x as [y|]; simpl in H; [discriminate|]. injection H as <-. apply Hid.
  - destruct x as [i|]; simpl in H; [|injection H as <-; apply Hid].
    inv_bind H as nd Hnd. apply of_option_Ok in Hnd.
    assert (Hlt : (i < length st)%nat) by (apply lookup_lt_is_Some; rewrite Hnd; done).
    assert (Hb : <[i := bump nd won]> st !! i = Some (bump nd won))
      by (apply list_lookup_insert_eq; exact Hlt).
    destruct (IH _ _ H) as (Hlen & Hfr & _).
    split; [rewrite Hlen, length_insert; reflexivity|]. split.
    + intros j ndj Hj. destruct (decide (j = i)) as [->|Hne].
      * rewrite Hnd in Hj. injection Hj as <-.
        destruct (Hfr i (bump nd won) Hb) as (nd' & H' & Hp & Hpa & Hc & Hu & Hv & Hw).
        unfold bump in Hp, Hpa, Hc, Hu, Hv, Hw. simpl in Hp, Hpa, Hc, Hu, Hv, Hw.
        exists nd'. repeat split; try assumption; [lia|]. destruct won; lia.
      * destruct (Hfr j ndj) as (nd' & H'); [rewrite list_lookup_insert_ne by congruence; exact Hj|].
        exists nd'. exact H'.
    + intros y Hy. injection Hy as <-.
      destruct (Hfr i (bump nd won) Hb) as (nd' & H' & _ & _ & _ & _ & Hv & _).
      unfold bump in Hv. simpl in Hv.
      exists nd, nd'. split; [exact Hnd|]. split; [exact H'|]. lia.
Qed.

(** [backpropagate] never adds or removes nodes and never touches a node's
    parent, parent action, children or untried actions; a node's visits only
    grow, its wins grow by as much as its visits when the game was won and
    stay put otherwise, and the starting node gets at least one more visit. *)
Lemma backpropagate_only_counts (fuel : nat) (st : store) (x : option nat) (won : bool)
    (st' : store) :
  backpropagate fuel st x won = Ok st' ->
  length st' = length st
  /\ (forall j nd, st !! j = Some nd -> exists nd', st' !! j = Some nd'
        /\ parent nd' = parent nd /\ parent_action nd' = parent_action nd
        /\ child_nodes nd' = child_nodes nd /\ untried_actions nd' = untried_actions nd
        /\ (visits nd <= visits nd')%nat
        /\ wins nd' = (wins nd + (if won then visits nd' - visits nd else 0))%nat)
  /\ (forall y, x = Some y -> exists nd nd', st !! y = Some nd /\ st' !! y = Some nd'
        /\ (visits nd < visits nd')%nat).
Proof. apply backpropagate_frame_aux. Qed.

Lemma backpropagate_only_counts_witness :
  exists st', backpropagate 5 two_children_store (Some 1%nat) true = Ok st'
    /\ length st' = length two_children_store.
Proof.
  pose (st' := match backpropagate 5 two_children_store (Some 1%nat) true with
               | Ok s => s | _ => [] end).
  assert (H : backpropagate 5 two_children_store (Some 1%nat) true = Ok st')
    by (vm_compute; reflexivity).
  exists st'. split; [exact H|].
  exact (proj1 (backpropagate_only_counts 5 two_children_store (Some 1%nat) true st' H)).
Defined.

(** ** Invariants of the search driver *)

Lemma list_pop_None {A} (l : list A) : list_pop l = None -> l = [].
Proof.
  unfold list_pop. destruct (rev l) as [|x r] eqn:E; [|discriminate]. intros _.
  rewrite <- (rev_involutive l), E. reflexivity.
Qed.

Lemma expand_leaf_shape {State} (board : Board State) (st : store) (node : nat) (state : State)
    (st1 : store) (leaf : option nat) (s1 : State) :
  expand_leaf board st node state = Ok (st1, leaf, s1) ->
  exists nd, st !! node = Some nd
  /\ ((untried_actions nd = [] /\ st1 = st /\ leaf = None)
      \/ (exists u a, untried_actions nd = u ++ [a] /\ leaf = Some (length st)
          /\ st1 = <[node := set_expansion nd u (dict_set a (length st) (child_nodes nd))]> st
                   ++ [new_node (Some node) (Some a) (legal_actions board (next_state board state a))])).
Proof.
  unfold expand_leaf. intros H. inv_bind H as nd Hnd. apply of_option_Ok in Hnd.
  exists nd. split; [exact Hnd|].
  destruct (list_pop (untried_actions nd)) as [[u a]|] eqn:Hpop.
  - right. apply list_pop_Some in Hpop. injection H as <- <- _.
    exists u, a. auto.
  - left. apply list_pop_None in Hpop. injection H as <- <- _. auto.
Qed.

(** One iteration: possibly one expansion, then a backpropagation starting
    at a node of the (possibly expanded) store. *)
Lemma mcts_iteration_shape {State} (board : Board State) (fuel : nat) (bot : Z) (s0 : State)
    (rollout : State -> result State) (st st' : store) :
  mcts_iteration board fuel bot s0 rollout st = Ok st' ->
  exists st1 y won, backpropagate fuel st1 (Some y) won = Ok st'
  /\ ((st1 = st /\ (y < length st)%nat)
      \/ (exists x nd u a state, st !! x = Some nd /\ untried_actions nd = u ++ [a]
          /\ y = length st
          /\ st1 = <[x := set_expansion nd u (dict_set a (length st) (child_nodes nd))]> st
                   ++ [new_node (Some x) (Some a) (legal_actions board (next_state board state a))])).
Proof.
  unfold mcts_iteration. intros H.
  inv_bind H as sel Hsel. destruct sel as [node state].
  destruct (select_loop_stops _ _ _ _ _ _ _ _ Hsel) as [ndx [Hx _]].
  inv_bind H as nd Hnd. apply of_option_Ok in Hnd. rewrite Hx in Hnd. injection Hnd as <-.
  inv_bind H as ex Hex. destruct ex as [[st1 leaf] state1].
  inv_bind H as rs Hrs. inv_bind H as won Hwon.
  case_bool_decide as Hu.
  - destruct (expand_leaf_shape _ _ _ _ _ _ _ Hex) as [nd [Hnd [(Hnil & _ & _)|(u & a & Hua & -> & ->)]]].
    + rewrite Hx in Hnd. injection Hnd as <-. contradiction.
    + exists (<[node := set_expansion nd u (dict_set a (length st) (child_nodes nd))]> st
              ++ [new_node (Some node) (Some a) (legal_actions board (next_state board state a))]),
             (length st), won.
      split; [exact H|]. right. exists node, nd, u, a, state. auto.
  - injection Hex as <- <- _. exists st, node, won. split; [exact H|]. left.
    split; [reflexivity|]. apply lookup_lt_is_Some. rewrite Hx. done.
Qed.

Lemma search_loop_preserves {State} (board : Board State) (P : store -> Prop) (fuel : nat)
    (bot : Z) (s0 : State) (rollouts : nat -> State -> result State) (k n : nat)
    (st st' : store) :
  (forall rollout st1 st2, P st1 -> mcts_iteration board fuel bot s0 rollout st1 = Ok st2 -> P st2) ->
  P st -> search_loop board fuel bot s0 rollouts k n st = Ok st' -> P st'.
Proof.
  intros Hstep. revert k st. induction n as [|n IH]; intros k st Hst H; simpl in H.
  - injection H as <-. exact Hst.
  - inv_bind H as st1 Hst1. exact (IH _ _ (Hstep _ _ _ Hst Hst1) H).
Qed.

Lemma backpropagate_lookup_back (fuel : nat) (st : store) (x : option nat) (won : bool)
    (st' : store) (j : nat) (nd' : MCTSNode) :
  backpropagate fuel st x won = Ok st' -> st' !! j = Some nd' ->
  exists nd, st !! j = Some nd /\ parent nd' = parent nd /\ parent_action nd' = parent_action nd
    /\ child_nodes nd' = child_nodes nd /\ untried_actions nd' = untried_actions nd
    /\ (visits nd <= visits nd')%nat.
Proof.
  intros H Hj. destruct (backpropagate_frame_aux _ _ _ _ _ H) as (Hlen & Hfr & _).
  assert (Hlt : (j < length st)%nat)
    by (rewrite <- Hlen; apply lookup_lt_is_Some; rewrite Hj; done).
  destruct (lookup_lt_is_Some_2 st j Hlt) as [nd Hnd].
  destruct (Hfr j nd Hnd) as (nd'' & H'' & Hp & Hpa & Hc & Hu & Hv & _).
  rewrite Hj in H''. injection H'' as <-. exists nd. repeat split; assumption.
Qed.

(** Nodes of the store keep their parent, parent action and visits through an
    expansion. *)
Lemma expanded_keeps (st : store) (x : nat) (nd nd' nw : MCTSNode) (j : nat) (ndj : MCTSNode) :
  st !! x = Some nd -> parent nd' = parent nd -> parent_action nd' = parent_action nd ->
  visits nd' = visits nd -> st !! j = Some ndj ->
  exists ndj', (<[x := nd']> st ++ [nw]) !! j = Some ndj'
    /\ parent ndj' = parent ndj /\ parent_action ndj' = parent_action ndj
    /\ visits ndj' = visits ndj.
Proof.
  intros Hx Hp Hpa Hv Hj.
  assert (Hxl : (x < length st)%nat) by (apply lookup_lt_is_Some; rewrite Hx; done).
  assert (Hjl : (j < length st)%nat) by (apply lookup_lt_is_Some; rewrite Hj; done).
  rewrite lookup_expanded by exact Hxl.
  destruct (decide (j = x)) as [->|Hne].
  - rewrite Hx in Hj. injection Hj as <-. exists nd'. auto.
  - rewrite decide_False by lia. exists ndj. auto.
Qed.

Lemma root_only_orphan_insert (st : store) (i : nat) (nd nd' : MCTSNode) :
  root_only_orphan st -> st !! i = Some nd -> parent nd' = parent nd ->
  root_only_orphan (<[i := nd']> st).
Proof.
  intros [[r [Hr Hrp]] Hall] Hi Hp.
  assert (Hlt : (i < length st)%nat) by (apply lookup_lt_is_Some; rewrite Hi; done).
  split.
  - rewrite lookup_insert_cases by exact Hlt. destruct (decide (0%nat = i)) as [<-|].
    + exists nd'. split; [reflexivity|]. rewrite Hp. rewrite Hr in Hi. injection Hi as <-. exact Hrp.
    + exists r. auto.
  - intros j ndj Hj Hj0. rewrite lookup_insert_cases in Hj by exact Hlt.
    destruct (decide (j = i)) as [->|].
    + injection Hj as <-. rewrite Hp. exact (Hall i nd Hi Hj0).
    + exact (Hall j ndj Hj Hj0).
Qed.

Lemma backpropagate_root_visit (fuel : nat) (st : store) (y : nat) (won : bool) (st' : store) :
  root_only_orphan st -> backpropagate fuel st (Some y) won = Ok st' ->
  node_visits st' 0 = S (node_visits st 0).
Proof.
  revert st y. induction fuel as [|fuel IH]; intros st y Hinv H; [discriminate|].
  simpl in H. inv_bind H as nd Hnd. apply of_option_Ok in Hnd.
  assert (Hlt : (y < length st)%nat) by (apply lookup_lt_is_Some; rewrite Hnd; done).
  pose proof (root_only_orphan_insert st y nd (bump nd won) Hinv Hnd eq_refl) as Hinv1.
  destruct Hinv as [[r [Hr Hrp]] Hall].
  destruct (decide (y = 0%nat)) as [->|Hy0].
  - rewrite Hr in Hnd. injection Hnd as <-. rewrite Hrp in H.
    assert (Hst' : st' = <[0%nat := bump r won]> st) by (destruct fuel; simpl in H; congruence).
    subst st'. unfold node_visits. rewrite list_lookup_insert_eq by exact Hlt. rewrite Hr.
    reflexivity.
  - destruct (parent nd) as [p|] eqn:Hp; [|exfalso; exact (Hall y nd Hnd Hy0 Hp)].
    rewrite (IH _ _ Hinv1 H). unfold node_visits.
    rewrite list_lookup_insert_ne by congruence. reflexivity.
Qed.

Lemma backpropagate_root_only_orphan (fuel : nat) (st : store) (x : option nat) (won : bool)
    (st' : store) :
  root_only_orphan st -> backpropagate fuel st x won = Ok st' -> root_only_orphan st'.
Proof.
  intros [[r [Hr Hrp]] Hall] H. destruct (backpropagate_frame_aux _ _ _ _ _ H) as (_ & Hfr & _).
  split.
  - destruct (Hfr 0%nat r Hr) as (r' & Hr' & Hp & _). exists r'. rewrite Hp. auto.
  - intros j nd' Hj Hj0. destruct (backpropagate_lookup_back _ _ _ _ _ _ _ H Hj) as (nd & Hnd & Hp & _).
    rewrite Hp. exact (Hall j nd Hnd Hj0).
Qed.

Lemma mcts_iteration_counts {State} (board : Board State) (fuel : nat) (bot : Z) (s0 : State)
    (rollout : State -> result State) (st st' : store) :
  root_only_orphan st -> non_root_visited st ->
  mcts_iteration board fuel bot s0 rollout st = Ok st' ->
  root_only_orphan st' /\ non_root_visited st'
  /\ node_visits st' 0 = S (node_visits st 0)
  /\ (length st <= length st' <= S (length st))%nat.
Proof.
  intros Hinv Hvis H.
  destruct (mcts_iteration_shape _ _ _ _ _ _ _ H) as (st1 & y & won & Hb & Hcase).
  destruct (backpropagate_frame_aux _ _ _ _ _ Hb) as (Hlen & _ & Hy).
  (* the store before backpropagation *)
  assert (Hst1 : root_only_orphan st1 /\ node_visits st1 0 = node_visits st 0
                 /\ (length st <= length st1 <= S (length st))%nat
                 /\ forall j nd1, st1 !! j = Some nd1 -> j <> 0%nat -> j <> y -> (1 <= visits nd1)%nat).
  { destruct Hcase as [[-> Hy0]|(x & nd & u & a & state & Hx & Hua & -> & ->)].
    - split; [exact Hinv|]. split; [reflexivity|]. split; [lia|].
      intros j nd1 Hj Hj0 _. exact (Hvis j nd1 Hj Hj0).
    - assert (Hxl : (x < length st)%nat) by (apply lookup_lt_is_Some; rewrite Hx; done).
      pose proof (fun j => lookup_expanded st x j
                    (set_expansion nd u (dict_set a (length st) (child_nodes nd)))
                    (new_node (Some x) (Some a) (legal_actions board (next_state board state a))) Hxl)
        as Hlk.
      destruct Hinv as [[r [Hr Hrp]] Hall].
      split; [split|]; [| |split; [|split]].
      + exists (if decide (x = 0%nat) then set_expansion nd u (dict_set a (length st) (child_nodes nd))
                else r).
        rewrite Hlk. destruct (decide (0%nat = x)) as [<-|Hx0].
        * rewrite decide_True by reflexivity. split; [reflexivity|].
          rewrite Hr in Hx. injection Hx as <-. exact Hrp.
        * rewrite decide_False by lia. rewrite decide_False by lia. auto.
      + intros j nd1 Hj Hj0. rewrite Hlk in Hj. destruct (decide (j = x)) as [->|Hjx].
        * injection Hj as <-. exact (Hall x nd Hx Hj0).
        * destruct (decide (j = length st)) as [->|].
          -- injection Hj as <-. discriminate.
          -- exact (Hall j nd1 Hj Hj0).
      + unfold node_visits. rewrite Hlk. destruct (decide (0%nat = x)) as [<-|].
        * rewrite Hx. reflexivity.
        * rewrite decide_False by lia. reflexivity.
      + rewrite length_app, length_insert. simpl. lia.
      + intros j nd1 Hj Hj0 Hjy. rewrite Hlk in Hj. destruct (decide (j = x)) as [->|Hjx].
        * injection Hj as <-. exact (Hvis x nd Hx Hj0).
        * rewrite decide_False in Hj by exact Hjy. exact (Hvis j nd1 Hj Hj0). }
  destruct Hst1 as (Hinv1 & Hroot1 & Hlen1 & Hvis1).
  split; [exact (backpropagate_root_only_orphan _ _ _ _ _ Hinv1 Hb)|].
  split; [|split; [rewrite (backpropagate_root_visit _ _ _ _ _ Hinv1 Hb), Hroot1; reflexivity|lia]].
  intros j nd' Hj Hj0.
  destruct (decide (j = y)) as [->|Hjy].
  - destruct (Hy y eq_refl) as (ndy & ndy' & _ & Hy' & Hlt). rewrite Hj in Hy'.
    injection Hy' as <-. lia.
  - destruct (backpropagate_lookup_back _ _ _ _ _ _ _ Hb Hj) as (nd1 & Hnd1 & _ & _ & _ & _ & Hv).
    specialize (Hvis1 j nd1 Hnd1 Hj0 Hjy). lia.
Qed.

Lemma search_counts {State} (board : Board State) (fuel n : nat) (s0 : State)
    (rollouts : nat -> State -> result State) (st : store) :
  search board fuel n s0 rollouts = Ok st ->
  root_only_orphan st /\ non_root_visited st /\ node_visits st 0 = n
  /\ (1 <= length st <= S n)%nat.
Proof.
  unfold search. intros H.
  assert (Hgen : forall k n st0 st', root_only_orphan st0 -> non_root_visited st0 ->
            search_loop board fuel (current_player board s0) s0 rollouts k n st0 = Ok st' ->
            root_only_orphan st' /\ non_root_visited st'
            /\ node_visits st' 0 = (node_visits st0 0 + n)%nat
            /\ (length st0 <= length st' <= length st0 + n)%nat).
  { intros k m. revert k. induction m as [|m IH]; intros k st0 st' H1 H2 Hl; simpl in Hl.
    - injection Hl as <-. split; [exact H1|]. split; [exact H2|]. lia.
    - inv_bind Hl as st1 Hst1.
      destruct (mcts_iteration_counts _ _ _ _ _ _ _ H1 H2 Hst1) as (H1' & H2' & Hv & Hlen).
      destruct (IH _ _ _ H1' H2' Hl) as (H1'' & H2'' & Hv' & Hlen').
      split; [exact H1''|]. split; [exact H2''|]. split; lia. }
  assert (Hor : root_only_orphan [new_node None None (legal_actions board s0)]).
  { split; [eexists; split; reflexivity|].
    intros j nd Hj Hj0. destruct j as [|j]; [lia|]. simpl in Hj. rewrite lookup_nil in Hj. discriminate. }
  assert (Hvi : non_root_visited [new_node None None (legal_actions board s0)]).
  { intros j nd Hj Hj0. destruct j as [|j]; [lia|]. simpl in Hj. rewrite lookup_nil in Hj. discriminate. }
  destruct (Hgen _ _ _ _ Hor Hvi H) as (H1 & H2 & Hv & Hlen).
  simpl in Hv, Hlen. split; [exact H1|]. split; [exact H2|]. split; [exact Hv|]. lia.
Qed.

(** After [n] iterations of [think]'s loop the root is still node 0, still
    has no parent, and has been visited exactly [n] times: every iteration's
    backpropagation reaches the root once. *)
Lemma search_root_visits {State} (board : Board State) (fuel n : nat) (s0 : State)
    (rollouts : nat -> State -> result State) (st : store) :
  search board fuel n s0 rollouts = Ok st ->
  exists r, st !! 0%nat = Some r /\ parent r = None /\ visits r = n.
Proof.
  intros H. destruct (search_counts _ _ _ _ _ _ H) as ([[r [Hr Hrp]] _] & _ & Hv & _).
  exists r. unfold node_visits in Hv. rewrite Hr in Hv. auto.
Qed.

Lemma search_root_visits_witness :
  exists r, toy_search_result !! 0%nat = Some r /\ parent r = None /\ visits r = 2%nat.
Proof.
  apply (search_root_visits toy_board 10 2 [] toy_rollouts). vm_compute. reflexivity.
Defined.

Lemma mcts_iteration_length {State} (board : Board State) (fuel : nat) (bot : Z) (s0 : State)
    (rollout : State -> result State) (st st' : store) :
  mcts_iteration board fuel bot s0 rollout st = Ok st' ->
  (length st <= length st' <= S (length st))%nat.
Proof.
  intros H. destruct (mcts_iteration_shape _ _ _ _ _ _ _ H) as (st1 & y & won & Hb & Hcase).
  destruct (backpropagate_frame_aux _ _ _ _ _ Hb) as (Hlen & _ & _).
  rewrite Hlen.
  destruct Hcase as [[-> _]|(x & nd & u & a & state & _ & _ & _ & ->)]; [lia|].
  rewrite length_app, length_insert. simpl. lia.
Qed.

(** Each iteration of [think]'s loop adds at most one node (the leaf created
    by [expand_leaf]) and removes none; so after [n] iterations the tree has
    between 1 and [n + 1] nodes. *)
Lemma search_tree_size {State} (board : Board State) :
  (forall fuel bot s0 rollout st st',
     mcts_iteration board fuel bot s0 rollout st = Ok st' ->
     (length st <= length st' <= S (length st))%nat)
  /\ (forall fuel n s0 rollouts st,
        search board fuel n s0 rollouts = Ok st -> (1 <= length st <= S n)%nat).
Proof.
  split; [exact (mcts_iteration_length board)|].
  intros fuel n s0 rollouts st H. apply (search_counts _ _ _ _ _ _ H).
Qed.

Lemma search_tree_size_witness :
  (length [mk_node None None [(toy_A, 1%nat)] [toy_B] 1 1;
           mk_node (Some 0%nat) (Some toy_A) [] [toy_B; toy_A] 1 1] <= length toy_search_result
     <= S (length [mk_node None None [(toy_A, 1%nat)] [toy_B] 1 1;
                   mk_node (Some 0%nat) (Some toy_A) [] [toy_B; toy_A] 1 1]))%nat
  /\ (1 <= length toy_search_result <= 3)%nat.
Proof.
  destruct (search_tree_size toy_board) as [H1 H2]. split.
  - apply (H1 10%nat 1 [] (toy_rollouts 1%nat)). vm_compute. reflexivity.
  - apply (H2 10%nat 2%nat [] toy_rollouts). vm_compute. reflexivity.
Defined.

(** After at least one iteration every node of the tree has been visited, so
    no [wins / visits] evaluated later on this tree divides by zero. *)
Lemma search_all_nodes_visited {State} (board : Board State) (fuel n : nat) (s0 : State)
    (rollouts : nat -> State -> result State) (st : store) :
  search board fuel n s0 rollouts = Ok st -> (1 <= n)%nat ->
  forall j nd, st !! j = Some nd -> (1 <= visits nd)%nat.
Proof.
  intros H Hn j nd Hj. destruct (search_counts _ _ _ _ _ _ H) as (_ & Hvis & Hv & _).
  destruct (decide (j = 0%nat)) as [->|Hj0].
  - unfold node_visits in Hv. rewrite Hj in Hv. lia.
  - exact (Hvis j nd Hj Hj0).
Qed.

Lemma search_all_nodes_visited_witness :
  (1 <= visits (mk_node (Some 0%nat) (Some toy_B) [] [toy_B; toy_A] 1 1))%nat.
Proof.
  apply (search_all_nodes_visited toy_board 10 2 [] toy_rollouts toy_search_result) with (j := 2%nat).
  - vm_compute. reflexivity.
  - lia.
  - reflexivity.
Defined.

Lemma dict_set_elem (k : Action) (v : nat) (d : list (Action * nat)) (k' : Action) (v' : nat) :
  (k', v') ∈ dict_set k v d -> (k', v') = (k, v) \/ (k', v') ∈ d.
Proof.
  induction d as [|[k0 v0] d IH]; simpl; intros H.
  - left. apply list_elem_of_singleton in H. exact H.
  - destruct (decide (k = k0)) as [->|Hne].
    + apply elem_of_cons in H as [H|H]; [left; exact H|right; apply elem_of_cons; right; exact H].
    + apply elem_of_cons in H as [H|H].
      * right. rewrite H. apply list_elem_of_here.
      * destruct (IH H) as [H'|H']; [left; exact H'|right; apply elem_of_cons; right; exact H'].
Qed.

Lemma elem_of_map_fst (cs : list (Action * nat)) (a : Action) :
  a ∈ map fst cs <-> exists c, (a, c) ∈ cs.
Proof.
  induction cs as [|[a0 c0] cs IH]; simpl.
  - split; [intros H; inversion H|intros [c H]; inversion H].
  - rewrite elem_of_cons, IH. split.
    + intros [->|[c Hc]]; [exists c0; apply list_elem_of_here|exists c; apply elem_of_cons; right; exact Hc].
    + intros [c Hc]. apply elem_of_cons in Hc as [Hc|Hc]; [injection Hc as -> _; left; reflexivity|].
      right. exists c. exact Hc.
Qed.

Lemma elem_of_map_snd_2 (cs : list (Action * nat)) (a : Action) (c : nat) :
  (a, c) ∈ cs -> c ∈ map snd cs.
Proof.
  induction cs as [|[a0 c0] cs IH]; simpl; intros H; [inversion H|].
  apply elem_of_cons in H as [H|H]; [injection H as -> ->; apply list_elem_of_here|].
  apply elem_of_cons. right. exact (IH H).
Qed.

Lemma mcts_iteration_children_linked {State} (board : Board State) (fuel : nat) (bot : Z)
    (s0 : State) (rollout : State -> result State) (st st' : store) :
  children_linked st -> mcts_iteration board fuel bot s0 rollout st = Ok st' ->
  children_linked st'.
Proof.
  intros Hcl H.
  destruct (mcts_iteration_shape _ _ _ _ _ _ _ H) as (st1 & y & won & Hb & Hcase).
  assert (Hcl1 : children_linked st1).
  { destruct Hcase as [[-> _]|(x & nd & u & a & state & Hx & Hua & -> & ->)]; [exact Hcl|].
    assert (Hxl : (x < length st)%nat) by (apply lookup_lt_is_Some; rewrite Hx; done).
    set (nd' := set_expansion nd u (dict_set a (length st) (child_nodes nd))).
    set (nw := new_node (Some x) (Some a) (legal_actions board (next_state board state a))).
    pose proof (fun j => lookup_expanded st x j nd' nw Hxl) as Hlk.
    assert (Hkeep : forall c cn, st !! c = Some cn ->
              exists cn', (<[x := nd']> st ++ [nw]) !! c = Some cn'
                /\ parent cn' = parent cn /\ parent_action cn' = parent_action cn).
    { intros c cn Hc. destruct (expanded_keeps st x nd nd' nw c cn Hx eq_refl eq_refl eq_refl Hc)
        as (cn' & H1 & H2 & H3 & _). eauto. }
    intros i nd1 a' c' Hi Hin. rewrite Hlk in Hi. destruct (decide (i = x)) as [->|Hix].
    - injection Hi as <-. unfold nd', set_expansion in Hin. simpl in Hin.
      apply dict_set_elem in Hin as [Heq|Hin].
      + injection Heq as -> ->. exists nw. rewrite Hlk.
        rewrite decide_False by lia. rewrite decide_True by reflexivity. auto.
      + destruct (Hcl x nd a' c' Hx Hin) as (cn & Hc & Hp & Hpa).
        destruct (Hkeep c' cn Hc) as (cn' & Hc' & Hp' & Hpa'). exists cn'. rewrite Hp', Hpa'. auto.
    - destruct (decide (i = length st)) as [->|Him].
      + injection Hi as <-. simpl in Hin. inversion Hin.
      + destruct (Hcl i nd1 a' c' Hi Hin) as (cn & Hc & Hp & Hpa).
        destruct (Hkeep c' cn Hc) as (cn' & Hc' & Hp' & Hpa'). exists cn'. rewrite Hp', Hpa'. auto. }
  destruct (backpropagate_frame_aux _ _ _ _ _ Hb) as (_ & Hfr & _).
  intros i nd' a' c' Hi Hin.
  destruct (backpropagate_lookup_back _ _ _ _ _ _ _ Hb Hi) as (nd & Hnd & _ & _ & Hc & _).
  rewrite Hc in Hin. destruct (Hcl1 i nd a' c' Hnd Hin) as (cn & Hcn & Hp & Hpa).
  destruct (Hfr c' cn Hcn) as (cn' & Hcn' & Hp' & Hpa' & _). exists cn'. rewrite Hp', Hpa'. auto.
Qed.

(** In every tree built by [think]'s loop, each entry [(a, c)] of a node's
    children mapping points to an existing node whose [parent] is that node
    and whose [parent_action] is [a]: the back-references used by
    [backpropagate] and the actions replayed by [traverse_nodes] agree with
    the children mappings. *)
Lemma search_children_linked {State} (board : Board State) (fuel n : nat) (s0 : State)
    (rollouts : nat -> State -> result State) (st : store) :
  search board fuel n s0 rollouts = Ok st ->
  forall i nd a c, st !! i = Some nd -> (a, c) ∈ child_nodes nd ->
    exists cn, st !! c = Some cn /\ parent cn = Some i /\ parent_action cn = Some a.
Proof.
  unfold search. intros H.
  refine (search_loop_preserves board children_linked _ _ _ _ _ _ _ _ _ _ H).
  - intros rollout st1 st2. apply mcts_iteration_children_linked.
  - intros i nd a c Hi Hin. destruct i as [|i]; simpl in Hi.
    + injection Hi as <-. inversion Hin.
    + rewrite lookup_nil in Hi. discriminate.
Qed.

Lemma search_children_linked_witness :
  exists cn, toy_search_result !! 2%nat = Some cn /\ parent cn = Some 0%nat
    /\ parent_action cn = Some toy_B.
Proof.
  apply (search_children_linked toy_board 10 2 [] toy_rollouts toy_search_result)
    with (nd := mk_node None None [(toy_A, 1%nat); (toy_B, 2%nat)] [] 2 2).
  - vm_compute. reflexivity.
  - reflexivity.
  - apply elem_of_cons. right. apply list_elem_of_here.
Defined.

Lemma mcts_iteration_root_actions_legal {State} (board : Board State) (fuel : nat) (bot : Z)
    (s0 : State) (rollout : State -> result State) (legal : list Action) (st st' : store) :
  root_actions_legal legal st -> mcts_iteration board fuel bot s0 rollout st = Ok st' ->
  root_actions_legal legal st'.
Proof.
  intros [r [Hr Hra]] H.
  destruct (mcts_iteration_shape _ _ _ _ _ _ _ H) as (st1 & y & won & Hb & Hcase).
  assert (Hra1 : root_actions_legal legal st1).
  { destruct Hcase as [[-> _]|(x & nd & u & a & state & Hx & Hua & -> & ->)]; [exists r; auto|].
    assert (Hxl : (x < length st)%nat) by (apply lookup_lt_is_Some; rewrite Hx; done).
    unfold root_actions_legal. rewrite lookup_expanded by exact Hxl.
    destruct (decide (0%nat = x)) as [<-|Hx0].
    - rewrite Hr in Hx. injection Hx as <-.
      eexists. split; [reflexivity|]. intros a' Ha'. simpl in Ha'. apply Hra.
      rewrite Hua, <- app_assoc. apply elem_of_app in Ha' as [Ha'|Ha'].
      + apply elem_of_app. left. exact Ha'.
      + apply elem_of_app. right. apply elem_of_map_fst in Ha' as [c Hc].
        apply dict_set_elem in Hc as [Hc|Hc].
        * injection Hc as -> _. apply elem_of_app. left. apply list_elem_of_here.
        * apply elem_of_app. right. apply elem_of_map_fst. eauto.
    - rewrite decide_False by lia. exists r. auto. }
  destruct Hra1 as [r1 [Hr1 Hra1]].
  destruct (backpropagate_frame_aux _ _ _ _ _ Hb) as (_ & Hfr & _).
  destruct (Hfr 0%nat r1 Hr1) as (r' & Hr' & _ & _ & Hc & Hu & _).
  exists r'. split; [exact Hr'|]. rewrite Hc, Hu. exact Hra1.
Qed.

Lemma search_tree_inv {State} (board : Board State) (fuel n : nat) (s0 : State)
    (rollouts : nat -> State -> result State) (st : store) :
  legal_actions board s0 <> [] -> NoDup (legal_actions board s0) ->
  search board fuel n s0 rollouts = Ok st -> tree_inv st /\ root_children_visits st = n.
Proof.
  intros Hne Hnd H. unfold search in H.
  pose proof (ex_intro _ _ (root_inv_fresh_root _ Hne Hnd)) as Hinv.
  split.
  - refine (search_loop_preserves board tree_inv _ _ _ _ _ _ _ _ _ Hinv H).
    intros rollout st1 st2 H1 H2. exact (proj1 (mcts_iteration_root_children_visits _ _ _ _ _ _ _ H1 H2)).
  - rewrite (search_loop_root_children_visits _ _ _ _ _ _ _ _ _ Hinv H). reflexivity.
Qed.

(** What [get_best_action] decides on the tree of [n] completed iterations
    of [think]'s loop, [think] being the case [n = num_nodes]: on a state
    without legal actions it returns [None]; on a state with legal actions
    (listed once each) and at least one iteration it returns one of them, and
    does not raise. *)
Lemma think_returns_legal_action {State} (board : Board State) (fuel n : nat) (s0 : State)
    (rollouts : nat -> State -> result State) (st : store) :
  search board fuel n s0 rollouts = Ok st -> NoDup (legal_actions board s0) ->
  (n = num_nodes -> think board fuel s0 rollouts = get_best_action st 0)
  /\ (legal_actions board s0 = [] -> get_best_action st 0 = Ok None)
  /\ (legal_actions board s0 <> [] -> (1 <= n)%nat ->
      exists a, get_best_action st 0 = Ok (Some a) /\ a ∈ legal_actions board s0).
Proof.
  intros Hs Hnd.
  split; [intros ->; unfold think; rewrite Hs; reflexivity|].
  assert (Hra : root_actions_legal (legal_actions board s0) st).
  { unfold search in Hs.
    refine (search_loop_preserves board _ _ _ _ _ _ _ _ _ _ _ Hs).
    - intros rollout st1 st2. apply mcts_iteration_root_actions_legal.
    - eexists. split; [reflexivity|]. simpl. rewrite app_nil_r. auto. }
  destruct Hra as [r [Hr Hra]].
  assert (Hkeys : forall a c, (a, c) ∈ child_nodes r -> a ∈ legal_actions board s0).
  { intros a c Hin. apply Hra, elem_of_app. right. apply elem_of_map_fst. eauto. }
  split.
  - intros Hnil. unfold get_best_action, lookup_node. rewrite Hr. simpl.
    destruct (child_nodes r) as [|[a c] cs] eqn:E; [reflexivity|].
    exfalso. specialize (Hkeys a c (list_elem_of_here _ _)). rewrite Hnil in Hkeys. inversion Hkeys.
  - intros Hne Hn1.
    destruct (search_tree_inv _ _ _ _ _ _ Hne Hnd Hs) as [[root Hinv] Hsum].
    rewrite (ri_root _ _ Hinv) in Hr. injection Hr as <-.
    destruct (search_counts _ _ _ _ _ _ Hs) as (_ & Hvis & _).
    assert (Hvalid : forall a c, (a, c) ∈ child_nodes root ->
              exists cn, st !! c = Some cn /\ (0 < visits cn)%nat).
    { intros a c Hin. pose proof (elem_of_map_snd_2 _ _ _ Hin) as Hc.
      destruct (root_inv_child_lt _ _ _ Hinv Hc) as [_ Hc0].
      apply (ri_children _ _ Hinv) in Hc. destruct Hc as [cn [Hcn _]].
      exists cn. split; [exact Hcn|]. exact (Hvis c cn Hcn Hc0). }
    assert (Hcne : child_nodes root <> []).
    { intros E. rewrite (root_children_visits_of _ _ (ri_root _ _ Hinv)), E in Hsum.
      simpl in Hsum. lia. }
    unfold get_best_action, lookup_node. rewrite (ri_root _ _ Hinv). simpl.
    destruct (best_action_scan_spec st (child_nodes root) (-9999 # 1) None Hvalid)
      as [res [Hres [[-> Hle]|(pre & a & c & post & Heq & -> & _)]]].
    + exfalso. destruct (child_nodes root) as [|x cs]; [congruence|].
      specialize (Hle x (list_elem_of_here _ _)).
      pose proof (child_rate_nonneg st x.2) as H0.
      assert (Hbad : (0 <= -9999 # 1)%Q) by exact (Qle_trans _ _ _ H0 Hle).
      unfold Qle in Hbad. simpl in Hbad. lia.
    + exists a. split; [exact Hres|]. apply (Hkeys a c). rewrite Heq.
      apply elem_of_app. right. apply list_elem_of_here.
Qed.

Lemma think_returns_legal_action_witness :
  (exists a, get_best_action toy_search_result 0 = Ok (Some a)
     /\ a ∈ legal_actions toy_board [])
  /\ think toy_board 10 [toy_A; toy_A] toy_rollouts = Ok None.
Proof.
  split.
  - assert (Hs : search toy_board 10 2 [] toy_rollouts = Ok toy_search_result)
      by (vm_compute; reflexivity).
    assert (Hnd : NoDup (legal_actions toy_board [])).
    { simpl. constructor; [|constructor; [|constructor]].
      - intros Hin. apply elem_of_cons in Hin as [Hin|Hin]; [discriminate|inversion Hin].
      - intros Hin. inversion Hin. }
    apply (proj2 (proj2 (think_returns_legal_action toy_board 10 2 [] toy_rollouts
                           toy_search_result Hs Hnd))).
    + simpl. discriminate.
    + lia.
  - pose (st := match search toy_board 10 num_nodes [toy_A; toy_A] toy_rollouts with
                | Ok s => s | _ => [] end).
    assert (Hs : search toy_board 10 num_nodes [toy_A; toy_A] toy_rollouts = Ok st)
      by (vm_compute; reflexivity).
    assert (Hnd : NoDup (legal_actions toy_board [toy_A; toy_A])) by (simpl; constructor).
    destruct (think_returns_legal_action toy_board 10 num_nodes [toy_A; toy_A] toy_rollouts
                st Hs Hnd) as (Ht & Hnil & _).
    rewrite (Ht eq_refl). apply Hnil. reflexivity.
Defined.

(** ** The sentinel case of [traverse_nodes] *)

Lemma traverse_nodes_no_child_spins {State} (board : Board State) (st : store) (node : nat)
    (state : State) (bot : Z) (nd : MCTSNode) :
  st !! node = Some nd -> descend_cond nd = true ->
  scan_children st (bool_decide (bot = current_player board state)) (child_nodes nd)
    sentinel_ucb None = Ok None ->
  forall fuel, traverse_nodes board fuel st node state bot = OutOfFuel.
Proof.
  intros Hnd Hc Hscan fuel. induction fuel as [|fuel IH]; [reflexivity|].
  cbn [traverse_nodes]. unfold lookup_node. rewrite Hnd. cbn [of_option mbind result_bind]. rewrite Hc, Hscan. exact IH.
Qed.

Lemma search_scan_picks_child {State} (board : Board State) (fuel n : nat) (s0 : State)
    (rollouts : nat -> State -> result State) (st : store) (i : nat) (nd : MCTSNode) (b : bool) :
  search board fuel n s0 rollouts = Ok st -> st !! i = Some nd -> descend_cond nd = true ->
  exists c, scan_children st b (child_nodes nd) sentinel_ucb None = Ok (Some c)
    /\ c ∈ map snd (child_nodes nd).
Proof.
  intros H Hi Hc.
  assert (Hne : child_nodes nd <> []).
  { intros E. unfold descend_cond in Hc. rewrite E in Hc.
    rewrite (bool_decide_eq_false_2 ([] <> [])) in Hc by congruence.
    rewrite andb_false_r in Hc. discriminate. }
  destruct n as [|n].
  { unfold search in H. simpl in H. injection H as <-.
    destruct i as [|i]; simpl in Hi; [injection Hi as <-; simpl in Hne; congruence|].
    rewrite lookup_nil in Hi. discriminate. }
  destruct (search_counts _ _ _ _ _ _ H) as ([[r [Hr Hrp]] _] & Hvis & Hv0 & _).
  assert (Hwl : wins_le_visits st).
  { unfold search in H. refine (search_loop_wins_le_visits _ _ _ _ _ _ _ _ _ _ H).
    constructor; [simpl; lia|constructor]. }
  assert (Hcl : children_linked st).
  { unfold search in H.
    refine (search_loop_preserves board children_linked _ _ _ _ _ _ _ _ _ _ H).
    - intros rollout st1 st2. apply mcts_iteration_children_linked.
    - intros j ndj a c Hj Hin. destruct j as [|j]; simpl in Hj.
      + injection Hj as <-. inversion Hin.
      + rewrite lookup_nil in Hj. discriminate. }
  assert (Hiv : (0 < visits nd)%nat).
  { destruct (decide (i = 0%nat)) as [->|Hi0].
    - unfold node_visits in Hv0. rewrite Hi in Hv0. lia.
    - pose proof (Hvis i nd Hi Hi0). lia. }
  refine (proj2 (scan_children_picks_child st b (child_nodes nd) _) Hne).
  intros a c Hin. destruct (Hcl i nd a c Hi Hin) as (cn & Hcn & Hp & _).
  assert (Hc0 : c <> 0%nat) by (intros ->; rewrite Hr in Hcn; injection Hcn as <-; congruence).
  exists cn, i, nd. split; [exact Hcn|]. split; [pose proof (Hvis c cn Hcn Hc0); lia|].
  split; [exact (proj1 (Forall_lookup _ st) Hwl c cn Hcn)|]. auto.
Qed.


